(** * eventsourcing: the aggregate mutation engine, snapshots and the recorder contract

    A shallow embedding of [eventsourcing/domain.py] (domain events, aggregates,
    snapshots) and of the application-recorder contract exercised by
    [eventsourcing/tests/base_application_recorder_tests.py].

    Python objects are mutated in place; here every method that mutates the
    aggregate is a computation in a state-and-exception monad whose state is
    the aggregate object, so the object's fields at the moment an exception
    propagates are part of the result.  The code that an application writes
    ([__init__], [apply], the body of a command method) runs on the live
    object and may rebind any entry of its [__dict__], [_id], [_version] and
    [_pending_events] included; such code is a function on the whole state. *)

From Equations Require Import Equations.
From stdpp Require Import gmap strings list fin_maps pretty sorting.

Local Open Scope Z_scope.

(** ** Python values, dictionaries and exceptions *)

Definition UUID := N.
Definition datetime := Z.

(** The values that event fields and aggregate attributes hold. *)
Inductive PyVal :=
  | VNone
  | VInt (z : Z)
  | VStr (s : string)
  | VUuid (u : UUID)
  | VTime (t : datetime).

Abbreviation Dict := (gmap string PyVal).

Inductive Exn :=
  | OriginatorIDError (event_id aggregate_id : UUID)
  | OriginatorVersionError (event_version next_version : Z)
  | TypeError
  | AssertionError
  | AttributeError (name : string)
  | TopicError (topic : PyVal)
  | UserError (tag : string).

(** ** Domain events *)

(** [DomainEvent]: the three base fields, the name of the event's class, and
    the remaining dataclass fields ([originator_topic] of a created event is
    one of them). *)
Record DomainEvent := {
  event_class_name : string;
  originator_id : UUID;
  originator_version : Z;
  timestamp : datetime;
  fields : Dict
}.

(** ** Aggregates *)

(** The [__dict__] of an aggregate instance.  The entries [_id], [_version]
    and [_pending_events], which [__base_init__] and [Snapshot.mutate] both
    set, are the typed fields; every other entry ([_created_on],
    [_modified_on], and the attributes the class defines) is in
    [dict_attrs]. *)
Record ObjectDict := {
  dict_id : UUID;
  dict_version : Z;
  dict_pending_events : list DomainEvent;
  dict_attrs : Dict
}.

(** An aggregate class, as far as [domain.py] looks at it: its topic
    ([get_topic(cls)]), the class attributes [INITIAL_VERSION] and
    [class_version] when the class declares them, the methods that
    [getattr(cls, upcast_name)] can find, its [__init__], whether that
    [__init__] mentions [id] ([_init_mentions_id]), and [create_id] with
    [_create_id_param_names].  [cls_init kwargs d] is [__init__] called with
    the keyword arguments [kwargs] on an instance whose [__dict__] is [d]: it
    raises, or returns having left the [__dict__] in some state.
    [cls_create_id] receives the keyword arguments and the UUID that
    [uuid4()] draws, and returns an id or raises. *)
Record AggregateClass := {
  cls_topic : string;
  initial_version : option Z;
  class_version : option Z;
  cls_methods : gmap string (Dict → Dict);
  cls_init : Dict → ObjectDict → Exn + ObjectDict;
  init_mentions_id : bool;
  _create_id_param_names : list string;
  cls_create_id : Dict → UUID → Exn + UUID
}.

(** An aggregate instance: its type and the entries of its [__dict__]. *)
Record Aggregate := {
  agg_type : AggregateClass;
  _id : UUID;
  _version : Z;
  _pending_events : list DomainEvent;
  attrs : Dict
}.

Definition set_version (v : Z) (a : Aggregate) : Aggregate :=
  {| agg_type := agg_type a; _id := _id a; _version := v;
     _pending_events := _pending_events a; attrs := attrs a |}.

Definition set_attrs (d : Dict) (a : Aggregate) : Aggregate :=
  {| agg_type := agg_type a; _id := _id a; _version := _version a;
     _pending_events := _pending_events a; attrs := d |}.

Definition set_pending_events (l : list DomainEvent) (a : Aggregate) : Aggregate :=
  {| agg_type := agg_type a; _id := _id a; _version := _version a;
     _pending_events := l; attrs := attrs a |}.

Definition set_id (i : UUID) (a : Aggregate) : Aggregate :=
  {| agg_type := agg_type a; _id := i; _version := _version a;
     _pending_events := _pending_events a; attrs := attrs a |}.

(** [aggregate.__dict__], and the instance with its [__dict__] replaced. *)
Definition __dict__ (a : Aggregate) : ObjectDict :=
  {| dict_id := _id a; dict_version := _version a;
     dict_pending_events := _pending_events a; dict_attrs := attrs a |}.

Definition set_dict (d : ObjectDict) (a : Aggregate) : Aggregate :=
  {| agg_type := agg_type a; _id := dict_id d; _version := dict_version d;
     _pending_events := dict_pending_events d; attrs := dict_attrs d |}.

(** The properties of [Aggregate]; [Aggregate_id] is [id].  [created_on] and
    [modified_on] read [__dict__]; [None] is Python's [AttributeError]. *)
Definition Aggregate_id (a : Aggregate) : UUID := _id a.
Definition version (a : Aggregate) : Z := _version a.
Definition created_on (a : Aggregate) : option PyVal := attrs a !! "_created_on".
Definition modified_on (a : Aggregate) : option PyVal := attrs a !! "_modified_on".
Definition pending_events (a : Aggregate) : list DomainEvent := _pending_events a.

(** The [modified_on] setter. *)
Definition set_modified_on (t : datetime) (a : Aggregate) : Aggregate :=
  set_attrs (<["_modified_on" := VTime t]> (attrs a)) a.

(** ** The monad of methods that mutate [self] *)

Definition M (A : Type) : Type := Aggregate → (Exn + A) * Aggregate.

Definition ret {A} (x : A) : M A := λ s, (inr x, s).
Definition raise {A} (e : Exn) : M A := λ s, (inl e, s).
Definition bind {A B} (m : M A) (k : A → M B) : M B :=
  λ s, match m s with
       | (inr x, s') => k x s'
       | (inl e, s') => (inl e, s')
       end.
Definition get : M Aggregate := λ s, (inr s, s).
Definition modify (f : Aggregate → Aggregate) : M unit := λ s, (inr tt, f s).
Definition put (s : Aggregate) : M unit := λ _, (inr tt, s).

Notation "'let*' x ':=' m 'in' k" := (bind m (λ x, k))
  (at level 10, x name, m at level 100, k at level 200).
Notation "m ';;' k" := (bind m (λ _, k))
  (at level 100, k at level 200, right associativity).

(** ** Event classes *)

(** What [apply] did: it returned a value or raised, having left the
    aggregate, on which it ran, in the state [aggregate'].  Nothing keeps an
    [apply] from assigning [_id] or [_version], from changing the list of
    pending events, or from triggering further events. *)
Inductive ApplyResult :=
  | Returned (value : PyVal) (aggregate' : Aggregate)
  | Raised (e : Exn) (aggregate' : Aggregate).

Definition result_state (r : ApplyResult) : Aggregate :=
  match r with
  | Returned _ aggregate' => aggregate'
  | Raised _ aggregate' => aggregate'
  end.

(** An event class: its name, whether it derives from [AggregateCreated], the
    dataclass fields it declares (without and with a default) besides the base
    fields, and its [apply] method. *)
Record EventClass := {
  ec_name : string;
  ec_is_created : bool;
  ec_required : list string;
  ec_defaults : Dict;
  ec_apply : DomainEvent → Aggregate → ApplyResult
}.

(** The constructor of an event class.  [MetaDomainEvent.__new__] makes every
    event class a frozen dataclass, and the [__init__] that the [dataclasses]
    library of Python generates for it is no code of [domain.py]: this
    definition is modelled from the documented behaviour of that library and
    of keyword calls, for event classes that define no [__init__] or
    [__post_init__] of their own.  The call has [originator_id],
    [originator_version] and [timestamp], further keywords written out at the
    call ([explicit]) and the caller's keyword dictionary [kwargs]: a keyword
    given twice, a keyword that is no field, and a field without default that
    is not given are each a [TypeError]; otherwise the fields are the given
    values over the defaults. *)
Definition event_new (event_class : EventClass)
    (oid : UUID) (ver : Z) (ts : datetime) (explicit kwargs : Dict)
    : Exn + DomainEvent :=
  let given := explicit ∪ kwargs in
  let own_required :=
    (if ec_is_created event_class then ["originator_topic"] else [])
    ++ ec_required event_class in
  if negb (bool_decide (map_Forall (λ k _,
        (k ∉ ["originator_id"; "originator_version"; "timestamp"])
        ∧ (explicit !! k = None)) kwargs))
  then inl TypeError
  else if negb (bool_decide (map_Forall (λ k _,
        (k ∈ own_required) ∨ is_Some (ec_defaults event_class !! k)) given))
  then inl TypeError
  else if negb (bool_decide (Forall (λ k, is_Some (given !! k)) own_required))
  then inl TypeError
  else inr {| event_class_name := ec_name event_class;
              originator_id := oid;
              originator_version := ver;
              timestamp := ts;
              fields := given ∪ ec_defaults event_class |}.

(** ** AggregateEvent.mutate *)

(** [AggregateEvent.mutate(self, aggregate)] for an [aggregate] that is not
    [None]: the state of the computation is [aggregate]. *)
Definition AggregateEvent_mutate (event_class : EventClass) (self : DomainEvent)
    : M unit :=
  let* aggregate := get in
  let next_version := version aggregate + 1 in
  if bool_decide (originator_id self ≠ Aggregate_id aggregate)
  then raise (OriginatorIDError (originator_id self) (Aggregate_id aggregate))
  else if bool_decide (originator_version self ≠ next_version)
  then raise (OriginatorVersionError (originator_version self) next_version)
  else
    match ec_apply event_class self aggregate with
    | Raised e aggregate' => put aggregate' ;; raise e
    | Returned value aggregate' =>
        put aggregate' ;;
        match value with
        | VNone =>
            modify (set_version (originator_version self)) ;;
            modify (set_modified_on (timestamp self))
        | _ => raise TypeError
        end
    end.

(** [AggregateEvent.mutate] with the [Optional] argument: [assert aggregate
    is not None] comes first. *)
Definition AggregateEvent_mutate_opt (event_class : EventClass)
    (self : DomainEvent) (aggregate : option Aggregate)
    : (Exn + unit) * option Aggregate :=
  match aggregate with
  | None => (inl AssertionError, None)
  | Some a => let '(r, a') := AggregateEvent_mutate event_class self a in
              (r, Some a')
  end.

(** ** AggregateCreated.mutate *)

(** [Aggregate.__base_init__] on the instance that [__new__] allocated. *)
Definition __base_init__ (cls : AggregateClass)
    (id : UUID) (version : Z) (timestamp : datetime) : Aggregate :=
  {| agg_type := cls;
     _id := id;
     _version := version;
     _pending_events := [];
     attrs := <["_modified_on" := VTime timestamp]>
                (<["_created_on" := VTime timestamp]> ∅) |}.

(** [AggregateCreated.mutate(self, aggregate)].  [resolve_topic] comes from
    [eventsourcing.utils]; it is a parameter here, and a topic it cannot
    resolve is a [TopicError]. *)
Definition AggregateCreated_mutate
    (resolve_topic : string → option AggregateClass)
    (self : DomainEvent) (aggregate : option Aggregate) : Exn + Aggregate :=
  match aggregate with
  | Some _ => inl AssertionError
  | None =>
      let kwargs := fields self in
      match kwargs !! "originator_topic" with
      | Some (VStr topic) =>
          match resolve_topic topic with
          | None => inl (TopicError (VStr topic))
          | Some aggregate_class =>
              let kwargs := delete "originator_topic" kwargs in
              let agg := __base_init__ aggregate_class (originator_id self)
                           (originator_version self) (timestamp self) in
              let kwargs :=
                if init_mentions_id aggregate_class
                then <["id" := VUuid (originator_id self)]> kwargs
                else kwargs in
              match cls_init aggregate_class kwargs (__dict__ agg) with
              | inl e => inl e
              | inr d => inr (set_dict d agg)
              end
          end
      | Some v => inl (TopicError v)
      | None => inl (TopicError VNone)
      end
  end.

(** ** MetaAggregate *)

(** [MetaAggregate.INITIAL_VERSION], and [cls.INITIAL_VERSION]: an attribute
    of that name in the class comes before the one of the metaclass. *)
Definition INITIAL_VERSION : Z := 1.

Definition getattr_INITIAL_VERSION (cls : AggregateClass) : Z :=
  default INITIAL_VERSION (initial_version cls).

(** [MetaAggregate._create(cls, event_class, id=None, kwargs)].  [uuid4] is
    the UUID that [create_id] would draw and [now] the clock reading of
    [datetime.now].  [cls.create_id] is called only when no [id] is given,
    before the event is constructed, and what it raises propagates.
    [created_event.mutate(None)] is [AggregateCreated.mutate] for a
    created-event class; the [mutate] of any other event class asserts that
    its argument is not [None]. *)
Definition _create (resolve_topic : string → option AggregateClass)
    (cls : AggregateClass) (event_class : EventClass)
    (id : option UUID) (uuid4 : UUID) (now : datetime) (kwargs : Dict)
    : Exn + Aggregate :=
  let create_id_kwargs :=
    filter (λ kv, kv.1 ∈ _create_id_param_names cls) kwargs in
  match
    match id with
    | Some i => inr i
    | None => cls_create_id cls create_id_kwargs uuid4
    end
  with
  | inl e => inl e
  | inr originator_id =>
      match event_new event_class originator_id (getattr_INITIAL_VERSION cls)
              now {["originator_topic" := VStr (cls_topic cls)]} kwargs with
      | inl _ => inl TypeError
      | inr created_event =>
          match
            (if ec_is_created event_class
             then AggregateCreated_mutate resolve_topic created_event None
             else inl AssertionError)
          with
          | inl e => inl e
          | inr agg =>
              inr (set_pending_events
                     (pending_events agg ++ [created_event]) agg)
          end
      end
  end.

(** ** Aggregate.trigger_event and Aggregate.collect_events *)

(** The [mutate] that an event of [event_class] has when it is applied to
    [self], an existing aggregate: [AggregateCreated.mutate] asserts that its
    argument is [None]. *)
Definition mutate_existing (event_class : EventClass) (new_event : DomainEvent)
    : M unit :=
  if ec_is_created event_class then raise AssertionError
  else AggregateEvent_mutate event_class new_event.

(** [Aggregate.trigger_event(self, event_class, kwargs)]; [now] is the clock
    reading of [datetime.now]. *)
Definition trigger_event (event_class : EventClass) (now : datetime)
    (kwargs : Dict) : M unit :=
  let* self := get in
  let next_version := version self + 1 in
  match event_new event_class (Aggregate_id self) next_version now ∅ kwargs with
  | inl _ => raise TypeError
  | inr new_event =>
      mutate_existing event_class new_event ;;
      modify (λ self, set_pending_events (pending_events self ++ [new_event]) self)
  end.

(** The loop of [collect_events]: while the pending list is not empty, its
    first element is popped and appended to [collected]. *)
Fixpoint collect_loop (pending collected : list DomainEvent)
    : list DomainEvent * list DomainEvent :=
  match pending with
  | [] => (collected, [])
  | e :: pending' => collect_loop pending' (collected ++ [e])
  end.

(** [Aggregate.collect_events(self)]. *)
Definition collect_events : M (list DomainEvent) :=
  let* self := get in
  let '(collected, pending) := collect_loop (pending_events self) [] in
  modify (set_pending_events pending) ;;
  ret collected.

(** ** Snapshots *)

(** [Snapshot]: a domain event with a [topic] and a [state]. *)
Record Snapshot := {
  snapshot_originator_id : UUID;
  snapshot_originator_version : Z;
  snapshot_timestamp : datetime;
  topic : string;
  state : Dict
}.

(** [getattr(cls, "class_version", 1)]. *)
Definition getattr_class_version (cls : AggregateClass) : Z :=
  default 1 (class_version cls).

(** [Snapshot.take(cls, aggregate)].  The three entries of [__dict__] that are
    typed fields of [Aggregate] are popped from the copy. *)
Definition Snapshot_take (now : datetime) (aggregate : Aggregate) : Snapshot :=
  let aggregate_state := attrs aggregate in
  let aggregate_state := delete "_pending_events" aggregate_state in
  let class_version := getattr_class_version (agg_type aggregate) in
  let aggregate_state :=
    if bool_decide (class_version > 1)
    then <["class_version" := VInt class_version]> aggregate_state
    else aggregate_state in
  let originator_id := _id aggregate in
  let aggregate_state := delete "_id" aggregate_state in
  let originator_version := _version aggregate in
  let aggregate_state := delete "_version" aggregate_state in
  {| snapshot_originator_id := originator_id;
     snapshot_originator_version := originator_version;
     snapshot_timestamp := now;
     topic := cls_topic (agg_type aggregate);
     state := aggregate_state |}.

(** The name of the method that upcasts from [from_version]. *)
Definition upcast_name (from_version : Z) : string :=
  "upcast_v" +:+ pretty from_version +:+ "_v" +:+ pretty (from_version + 1).

(** The [while] loop of [Snapshot.mutate]: [getattr(cls, upcast_name)] raises
    [AttributeError] when the class has no such method; the method updates
    the state dictionary in place. *)
Equations upcast_loop (cls : AggregateClass) (from_version class_version : Z)
    (aggregate_state : Dict) : Exn + Dict
    by wf (Z.to_nat (class_version - from_version)) lt :=
  upcast_loop cls from_version class_version aggregate_state
    with decide (from_version < class_version) := {
    | left _ =>
        match cls_methods cls !! upcast_name from_version with
        | None => inl (AttributeError (upcast_name from_version))
        | Some upcast =>
            upcast_loop cls (from_version + 1) class_version
              (upcast aggregate_state)
        end
    | right _ => inr aggregate_state }.
Next Obligation. lia. Qed.

(** [Snapshot.mutate(self, aggregate)]; the argument [aggregate] is not
    read.  Comparing a [class_version] entry that is no integer with the
    class's version is a [TypeError]. *)
Definition Snapshot_mutate (resolve_topic : string → option AggregateClass)
    (self : Snapshot) (aggregate : option Aggregate) : Exn + Aggregate :=
  match resolve_topic (topic self) with
  | None => inl (TopicError (VStr (topic self)))
  | Some cls =>
      let aggregate_state := state self in
      let from_version := default (VInt 1) (aggregate_state !! "class_version") in
      let aggregate_state := delete "class_version" aggregate_state in
      let class_version := getattr_class_version cls in
      match from_version with
      | VInt from_version =>
          match upcast_loop cls from_version class_version aggregate_state with
          | inl e => inl e
          | inr aggregate_state =>
              inr {| agg_type := cls;
                     _id := snapshot_originator_id self;
                     _version := snapshot_originator_version self;
                     _pending_events := [];
                     attrs := delete "_pending_events"
                                (delete "_version"
                                   (delete "_id" aggregate_state)) |}
          end
      | _ => inl TypeError
      end
  end.

(** ** Sequences of commands *)

(** One command: a call [self.trigger_event(cmd_class, kwargs)] at clock
    reading [cmd_now]. *)
Record Command := {
  cmd_class : EventClass;
  cmd_now : datetime;
  cmd_kwargs : Dict
}.

(** The commands are triggered one after the other on the same aggregate; a
    caller that catches the exception of a failed command goes on with the
    next one.  The result is the list of commands that succeeded and the
    aggregate at the end. *)
Fixpoint run_commands (cmds : list Command) (self : Aggregate)
    : list Command * Aggregate :=
  match cmds with
  | [] => ([], self)
  | c :: cmds' =>
      match trigger_event (cmd_class c) (cmd_now c) (cmd_kwargs c) self with
      | (inr _, self') =>
          let '(done, self'') := run_commands cmds' self' in (c :: done, self'')
      | (inl _, self') => run_commands cmds' self'
      end
  end.

(** ** The application recorder *)

Module Recorder.

(** Modelled from the spec: [StoredEvent] and [Notification] are declared in
    [eventsourcing.persistence], which is missing from the sources; their
    fields are the ones the recorder test constructs and reads.  [state]
    holds bytes. *)
Record StoredEvent := {
  originator_id : UUID;
  originator_version : Z;
  topic : string;
  state : string
}.

Record Notification := {
  id : Z;
  stored : StoredEvent
}.

Inductive Error := ConflictError.

(** The versions recorded for one originator, in commit order. *)
Definition versions_of (oid : UUID) (history : list StoredEvent) : list Z :=
  originator_version <$> filter (λ e, originator_id e = oid) history.

(** Modelled from the spec: the recorder itself ([insert_events],
    [select_events], [select_notifications], [max_notification_id]) is
    missing from the sources, which hold only its conformance test.  The
    state of the recorder is the list of committed notifications in commit
    order.  An event conflicts with the history before it when its
    (originator_id, originator_version) already exists, or when it leaves a
    version gap relative to the history of its originator, that is, when
    its version is not the latest version of that originator plus one.
    The first version of an originator is not constrained: the conformance
    test starts one originator at version 0 and another at version 1. *)
Definition is_duplicate (history : list StoredEvent) (e : StoredEvent) : bool :=
  bool_decide (Exists (λ e', originator_id e' = originator_id e
                             ∧ originator_version e' = originator_version e)
                 history).

Definition leaves_gap (history : list StoredEvent) (e : StoredEvent) : bool :=
  match last (versions_of (originator_id e) history) with
  | None => false
  | Some latest => bool_decide (originator_version e ≠ latest + 1)
  end.

(** Modelled from the spec: the events of a batch are checked in order,
    each against the committed history followed by the events of the batch
    before it, so that duplicates and gaps inside the batch are conflicts
    too. *)
Fixpoint conflict_free (history batch : list StoredEvent) : bool :=
  match batch with
  | [] => true
  | e :: batch' =>
      negb (is_duplicate history e) && negb (leaves_gap history e)
      && conflict_free (history ++ [e]) batch'
  end.

(** Modelled from the spec: the highest id assigned, 0 for the empty
    store. *)
Definition max_notification_id (recorder : list Notification) : Z :=
  foldr (λ n m, Z.max (id n) m) 0 recorder.

(** Modelled from the spec: [insert_events] commits the whole batch or
    nothing.  The events get the ids after the highest one, in the order
    of the batch, and are returned with them; a conflict leaves the store
    as it was. *)
Definition insert_events (batch : list StoredEvent)
    (recorder : list Notification)
    : (Error + list (StoredEvent * Z)) * list Notification :=
  if conflict_free (stored <$> recorder) batch then
    let returning :=
      zip batch
        (seqZ (max_notification_id recorder + 1) (Z.of_nat (length batch))) in
    (inr returning,
     recorder ++ ((λ r, {| id := r.2; stored := r.1 |}) <$> returning))
  else (inl ConflictError, recorder).

(** Modelled from the spec: the stored events of one originator. *)
Definition select_events (oid : UUID) (recorder : list Notification)
    : list StoredEvent :=
  filter (λ e, originator_id e = oid) (stored <$> recorder).

(** Modelled from the spec: a notification is selected when [start ≤ id],
    [id ≤ stop] if [stop] is given, and its topic is in [topics] if [topics]
    is given. *)
Definition selected (start : Z) (stop : option Z)
    (topics : option (gset string)) (n : Notification) : Prop :=
  start ≤ id n
  ∧ match stop with Some s => id n ≤ s | None => True end
  ∧ match topics with Some ts => topic (stored n) ∈ ts | None => True end.

Global Instance selected_dec start stop topics n :
  Decision (selected start stop topics n).
Proof. unfold selected. destruct stop, topics; apply _. Defined.

(** Modelled from the spec: [select_notifications] returns the first [limit]
    selected notifications. *)
Definition select_notifications (start limit : Z) (stop : option Z)
    (topics : option (gset string)) (recorder : list Notification)
    : list Notification :=
  take (Z.to_nat limit) (filter (selected start stop topics) recorder).

(** The stores that calls of [insert_events] build from the empty one,
    whether the calls succeed or not. *)
Inductive reachable : list Notification → Prop :=
  | reachable_empty : reachable []
  | reachable_insert batch recorder :
      reachable recorder → reachable (insert_events batch recorder).2.

(** A run of [insert_events] calls none of which conflicts: what the calls
    returned, and the store at the end. *)
Fixpoint insert_all (batches : list (list StoredEvent))
    (recorder : list Notification)
    : option (list (list (StoredEvent * Z)) * list Notification) :=
  match batches with
  | [] => Some ([], recorder)
  | batch :: batches' =>
      match insert_events batch recorder with
      | (inr returning, recorder') =>
          match insert_all batches' recorder' with
          | Some (returned, recorder'') =>
              Some (returning :: returned, recorder'')
          | None => None
          end
      | (inl _, _) => None
      end
  end.

(** The ids of the store are 1, 2, ..., its length. *)
Definition dense (recorder : list Notification) : Prop :=
  id <$> recorder = seqZ 1 (Z.of_nat (length recorder)).

(** The versions of every originator are consecutive and ascending. *)
Definition contiguous (history : list StoredEvent) : Prop :=
  ∀ oid, ∃ first,
    versions_of oid history
    = seqZ first (Z.of_nat (length (versions_of oid history))).

(** The versions of every originator are 1, 2, 3, ... *)
Definition starting_at_one (history : list StoredEvent) : Prop :=
  ∀ oid,
    versions_of oid history
    = seqZ 1 (Z.of_nat (length (versions_of oid history))).

(** The stored events of [test_insert_select]. *)
Definition originator_id1 : UUID := 1%N.
Definition originator_id2 : UUID := 2%N.

Definition stored_event1 : StoredEvent :=
  {| originator_id := originator_id1; originator_version := 0;
     topic := "topic1"; state := "state1" |}.
Definition stored_event2 : StoredEvent :=
  {| originator_id := originator_id1; originator_version := 1;
     topic := "topic2"; state := "state2" |}.
Definition stored_event3 : StoredEvent :=
  {| originator_id := originator_id2; originator_version := 1;
     topic := "topic3"; state := "state3" |}.

(** The three events of the topic-filter example: versions 1 and 2 of one
    originator, version 1 of another. *)
Definition topic_event1 : StoredEvent :=
  {| originator_id := originator_id1; originator_version := 1;
     topic := "topic1"; state := "state1" |}.
Definition topic_event2 : StoredEvent :=
  {| originator_id := originator_id1; originator_version := 2;
     topic := "topic2"; state := "state2" |}.
Definition topic_event3 : StoredEvent :=
  {| originator_id := originator_id2; originator_version := 1;
     topic := "topic3"; state := "state3" |}.

(** The store of [test_insert_select] after its three inserts. *)
Definition test_recorder : list Notification :=
  (insert_events [stored_event3]
     (insert_events [stored_event1; stored_event2]
        (insert_events [] []).2).2).2.

End Recorder.

(** ** A small domain model used in the examples

    A [Dog] aggregate with a [name]; [Registered] is its created event,
    [NameChanged] sets the name, and the [apply] of [Barked] returns a
    value. *)

Definition Dog : AggregateClass :=
  {| cls_topic := "dogschool:Dog";
     initial_version := None;
     class_version := None;
     cls_methods := ∅;
     cls_init := λ kwargs d,
       match kwargs !! "name" with
       | Some v => if bool_decide (size kwargs = 1%nat)
                   then inr {| dict_id := dict_id d;
                               dict_version := dict_version d;
                               dict_pending_events := dict_pending_events d;
                               dict_attrs := <["name" := v]> (dict_attrs d) |}
                   else inl TypeError
       | None => inl TypeError
       end;
     init_mentions_id := false;
     _create_id_param_names := [];
     cls_create_id := λ _ uuid4, inr uuid4 |}.

Definition Registered : EventClass :=
  {| ec_name := "Dog.Registered";
     ec_is_created := true;
     ec_required := ["name"];
     ec_defaults := ∅;
     ec_apply := λ _ aggregate, Returned VNone aggregate |}.

Definition NameChanged : EventClass :=
  {| ec_name := "Dog.NameChanged";
     ec_is_created := false;
     ec_required := ["name"];
     ec_defaults := ∅;
     ec_apply := λ self aggregate,
       Returned VNone
         (set_attrs
            (<["name" := default VNone (fields self !! "name")]> (attrs aggregate))
            aggregate) |}.

Definition Barked : EventClass :=
  {| ec_name := "Dog.Barked";
     ec_is_created := false;
     ec_required := [];
     ec_defaults := ∅;
     ec_apply := λ _ aggregate, Returned (VStr "woof") aggregate |}.

(** Two events whose [apply] reaches below the attributes of the dog: the
    one of [Rechipped] assigns [aggregate._id], the one of [Cleared] empties
    the list of pending events ([aggregate.pending_events.clear()]). *)
Definition Rechipped : EventClass :=
  {| ec_name := "Dog.Rechipped";
     ec_is_created := false;
     ec_required := [];
     ec_defaults := ∅;
     ec_apply := λ _ aggregate, Returned VNone (set_id 8%N aggregate) |}.


Definition dog_topics (topic : string) : option AggregateClass :=
  if bool_decide (topic = "dogschool:Dog") then Some Dog else None.

(** The dog that [Dog(name="Fido")] creates at time 100 with id 7. *)
Definition fido : Aggregate :=
  {| agg_type := Dog; _id := 7%N; _version := 1;
     _pending_events :=
       [ {| event_class_name := "Dog.Registered"; originator_id := 7%N;
            originator_version := 1; timestamp := 100;
            fields := <["originator_topic" := VStr "dogschool:Dog"]>
                        {["name" := VStr "Fido"]} |} ];
     attrs := <["name" := VStr "Fido"]>
                (<["_modified_on" := VTime 100]>
                   (<["_created_on" := VTime 100]> ∅)) |}.

(** A [NameChanged] event that is next in [fido]'s sequence, one with another
    originator, and one with a version that is not the next. *)
Definition renamed (oid : UUID) (ver : Z) : DomainEvent :=
  {| event_class_name := "Dog.NameChanged"; originator_id := oid;
     originator_version := ver; timestamp := 200;
     fields := {["name" := VStr "Rex"]} |}.

(** Three commands on a dog: a rename, a bark (whose [apply] returns a
    value, so that [mutate] raises [TypeError]) and another rename. *)
Definition dog_commands : list Command :=
  [ {| cmd_class := NameChanged; cmd_now := 200;
       cmd_kwargs := {["name" := VStr "Rex"]} |};
    {| cmd_class := Barked; cmd_now := 300; cmd_kwargs := ∅ |};
    {| cmd_class := NameChanged; cmd_now := 400;
       cmd_kwargs := {["name" := VStr "Max"]} |} ].

(** A dog whose instance has an attribute named [class_version]. *)
Definition fido_tagged : Aggregate :=
  set_attrs (<["class_version" := VInt 7]> (attrs fido)) fido.






(** ** Statements that are examined below *)

(** The [__dict__] of an aggregate without its [_pending_events] entry: the
    typed fields [_id] and [_version] are entries of it. *)
Definition dict_without_pending (a : Aggregate) : Dict :=
  <["_id" := VUuid (_id a)]>
    (<["_version" := VInt (_version a)]>
       (delete "_pending_events" (attrs a))).

(** Taking a snapshot of [A] and restoring it gives an aggregate with the id,
    the version and every other field of [A], and no pending events. *)
Definition snapshot_restores (resolve_topic : string → option AggregateClass)
    (now : datetime) (A : Aggregate) : Prop :=
  ∃ A',
    Snapshot_mutate resolve_topic (Snapshot_take now A) None = inr A'
    ∧ Aggregate_id A' = Aggregate_id A
    ∧ version A' = version A
    ∧ dict_without_pending A' = dict_without_pending A
    ∧ pending_events A' = [].


(** Every aggregate is born at version 1, and after the commands [cmds] its
    version is 1 plus the number of commands that succeeded and its id is
    the one it was created with. *)
Definition born_at_one_and_counts
    (resolve_topic : string → option AggregateClass)
    (cls : AggregateClass) (event_class : EventClass) (id : option UUID)
    (uuid4 : UUID) (now : datetime) (kwargs : Dict) (cmds : list Command)
    : Prop :=
  ∀ agg done self',
    _create resolve_topic cls event_class id uuid4 now kwargs = inr agg →
    run_commands cmds agg = (done, self') →
    version agg = 1
    ∧ version self' = 1 + Z.of_nat (length done)
    ∧ Aggregate_id self' = Aggregate_id agg.


(** * Command methods *)

(** ** Method signatures *)

(** [inspect.Parameter]: the kinds, and the name, kind and default of one
    parameter ([None] is [Parameter.empty]). *)
Inductive ParameterKind :=
  | POSITIONAL_ONLY
  | POSITIONAL_OR_KEYWORD
  | VAR_POSITIONAL
  | KEYWORD_ONLY
  | VAR_KEYWORD.

Record MethodParameter := {
  param_name : string;
  param_kind : ParameterKind;
  param_default : option PyVal
}.

Definition is_positional_or_keyword (p : MethodParameter) : bool :=
  match param_kind p with POSITIONAL_OR_KEYWORD => true | _ => false end.

Definition is_keyword_only (p : MethodParameter) : bool :=
  match param_kind p with KEYWORD_ONLY => true | _ => false end.

(** [_check_no_variable_params(method)], given the parameters of the method's
    signature in order. *)
Fixpoint _check_no_variable_params (parameters : list MethodParameter) : Exn + unit :=
  match parameters with
  | [] => inr tt
  | param :: parameters' =>
      match param_kind param with
      | VAR_POSITIONAL => inl TypeError
      | VAR_KEYWORD => inl TypeError
      | _ => _check_no_variable_params parameters'
      end
  end.

(** The parameters that the loops of [_coerce_args_to_kwargs] look at: all
    but the one named [self]. *)
Definition not_self (parameters : list MethodParameter) : list MethodParameter :=
  filter (λ p, param_name p ≠ "self") parameters.

(** The four collections that the first loop of [_coerce_args_to_kwargs]
    fills. *)
Definition positional_or_keyword (parameters : list MethodParameter)
    : list MethodParameter :=
  filter (λ p, is_positional_or_keyword p) (not_self parameters).

Definition positional_names (expects_id : bool)
    (parameters : list MethodParameter) : list string :=
  (if expects_id then ["id"] else [])
  ++ (param_name <$> positional_or_keyword parameters).

Definition required_positional (expects_id : bool)
    (parameters : list MethodParameter) : list string :=
  (if expects_id then ["id"] else [])
  ++ (param_name <$> filter (λ p, param_default p = None)
                       (positional_or_keyword parameters)).

Definition required_keyword_only (parameters : list MethodParameter) : list string :=
  param_name <$> filter (λ p, is_keyword_only p) (not_self parameters).

Definition keyword_defaults (parameters : list MethodParameter) : Dict :=
  foldl (λ defaults p,
           match param_default p with
           | Some value => <[param_name p := value]> defaults
           | None => defaults
           end) ∅ (not_self parameters).

(** The loop over [positional_names]: it stops when the arguments are used
    up, binds the next argument to a name that is not a keyword of the call,
    and raises [TypeError] for a name that is. *)
Fixpoint bind_positional (names : list string) (args : list PyVal)
    (kwargs copy_kwargs : Dict) : Exn + Dict :=
  match args, names with
  | [], _ => inr copy_kwargs
  | _, [] => inr copy_kwargs
  | arg :: args', name :: names' =>
      match kwargs !! name with
      | None => bind_positional names' args' kwargs (<[name := arg]> copy_kwargs)
      | Some _ => inl TypeError
      end
  end.

(** [_coerce_args_to_kwargs(method, args, kwargs, expects_id)], given the
    parameters of the method's signature.  Every error it raises is a
    [TypeError]; the messages are not modelled. *)
Definition _coerce_args_to_kwargs (parameters : list MethodParameter)
    (args : list PyVal) (kwargs : Dict) (expects_id : bool) : Exn + Dict :=
  let copy_kwargs := kwargs in
  let positional_names := positional_names expects_id parameters in
  let keyword_defaults := keyword_defaults parameters in
  let required_positional := required_positional expects_id parameters in
  let required_keyword_only := required_keyword_only parameters in
  if negb (bool_decide (map_Forall (λ name _,
        (name ∈ required_keyword_only) ∨ (name ∈ positional_names)) kwargs))
  then inl TypeError
  else
    let len_args := length args in
    if bool_decide (length positional_names < len_args)%nat then inl TypeError
    else
      let required_positional_not_in_kwargs :=
        filter (λ n, kwargs !! n = None) required_positional in
      let num_missing :=
        Z.of_nat (length required_positional_not_in_kwargs) - Z.of_nat len_args in
      if bool_decide (num_missing > 0) then inl TypeError
      else
        match bind_positional positional_names args kwargs copy_kwargs with
        | inl e => inl e
        | inr copy_kwargs =>
            let missing_keyword_only_arguments :=
              filter (λ n, kwargs !! n = None) required_keyword_only in
            match missing_keyword_only_arguments with
            | _ :: _ => inl TypeError
            | [] => inr (copy_kwargs ∪ keyword_defaults)
            end
        end.

(** ** Decorated command methods *)

(** A method that [@event] decorates: the parameters of its signature, the
    first of which receives the aggregate, and its body, which gets the
    other arguments by name and, like [apply], runs on the aggregate and
    returns or raises having left it in some state. *)
Record Method := {
  method_parameters : list MethodParameter;
  method_body : Dict → Aggregate → ApplyResult
}.

Definition accepts_keyword (p : MethodParameter) : bool :=
  match param_kind p with
  | POSITIONAL_OR_KEYWORD | KEYWORD_ONLY => true
  | _ => false
  end.

(** The call [original_method(aggregate, ...)] with the entries of [kwargs]
    as keyword arguments.  How Python binds the arguments of a call is no
    code of [domain.py]: this definition is modelled from the rules of the
    language for a function without variable parameters (the decorator runs
    [_check_no_variable_params] on every method it takes; a method with such
    a parameter gets [TypeError] here).  The aggregate goes
    to the first parameter; every keyword has to name another parameter that
    takes keywords; every other parameter has to be given or to have a
    default.  Python raises [TypeError] otherwise, before the body runs. *)
Definition call_method (method : Method) (aggregate : Aggregate)
    (kwargs : Dict) : ApplyResult :=
  match _check_no_variable_params (method_parameters method),
        method_parameters method with
  | inr _, first :: rest =>
      match param_kind first with
      | POSITIONAL_ONLY | POSITIONAL_OR_KEYWORD =>
          if bool_decide (map_Forall (λ name _,
                 (name ≠ param_name first)
                 ∧ (name ∈ param_name <$> filter (λ p, accepts_keyword p) rest))
               kwargs)
             && bool_decide (Forall (λ p,
                    is_Some (param_default p)
                    ∨ (accepts_keyword p ∧ is_Some (kwargs !! param_name p)))
                  rest)
          then method_body method
                 (kwargs ∪ foldl (λ defaults p,
                                    match param_default p with
                                    | Some value => <[param_name p := value]> defaults
                                    | None => defaults
                                    end) ∅ rest)
                 aggregate
          else Raised TypeError aggregate
      | _ => Raised TypeError aggregate
      end
  | _, _ => Raised TypeError aggregate
  end.

(** [DecoratedEvent.apply(self, aggregate)], where [original_method] is the
    entry of [original_methods] for the class of the event. *)
Definition DecoratedEvent_apply (original_method : Method)
    (self : DomainEvent) (aggregate : Aggregate) : ApplyResult :=
  let event_obj_dict := fields self in
  match call_method original_method aggregate event_obj_dict with
  | Returned VNone aggregate' => Returned VNone aggregate'
  | Returned _ aggregate' => Raised TypeError aggregate'
  | Raised e aggregate' => Raised e aggregate'
  end.

(** The event class that [MetaAggregate.__init__] defines for a decorated
    method whose decorator names no event class: a [DecoratedEvent] dataclass
    with one field, without default, for every parameter but [self]. *)
Definition decorated_event_class (event_cls_name : string)
    (original_method : Method) : EventClass :=
  {| ec_name := event_cls_name;
     ec_is_created := false;
     ec_required := param_name <$> not_self (method_parameters original_method);
     ec_defaults := ∅;
     ec_apply := DecoratedEvent_apply original_method |}.

(** [CommandMethodDecorator], as far as [BoundCommandMethodDecorator.trigger]
    reads it. *)
Record CommandMethodDecorator := {
  original_method : option Method;
  given_event_cls : option EventClass;
  event_cls_name : option string
}.

(** [getattr(aggregate, name)] for the name of an event class: an entry of
    the instance's [__dict__] hides the class attribute; [class_events] are
    the event classes defined on the aggregate's class. *)
Definition instance_has (aggregate : Aggregate) (name : string) : bool :=
  bool_decide (name ∈ ["_id"; "_version"; "_pending_events"])
  || bool_decide (is_Some (attrs aggregate !! name)).

(** The call [self.aggregate.trigger_event(event_cls, **kwargs)], which
    spreads the dictionary into keywords: [self] and [event_class] are
    parameters of [trigger_event], so a dictionary with one of these keys
    gives the parameter a second value, a [TypeError] of the call. *)
Definition trigger_event_with_keywords (event_cls : EventClass)
    (now : datetime) (kwargs : Dict) : M unit :=
  if bool_decide (is_Some (kwargs !! "self")
                  ∨ is_Some (kwargs !! "event_class"))
  then raise TypeError
  else trigger_event event_cls now kwargs.

(** [BoundCommandMethodDecorator.trigger(self, args, kwargs)] on
    [self.aggregate].  An instance attribute found under the event class name
    is no class, and calling it in [trigger_event] is a [TypeError]. *)
Definition BoundCommandMethodDecorator_trigger
    (event_decorator : CommandMethodDecorator)
    (class_events : string → option EventClass)
    (now : datetime) (args : list PyVal) (kwargs : Dict) : M unit :=
  match original_method event_decorator with
  | None => raise AssertionError
  | Some method =>
      match _coerce_args_to_kwargs (method_parameters method) args kwargs false with
      | inl e => raise e
      | inr kwargs =>
          match given_event_cls event_decorator with
          | Some event_cls => trigger_event_with_keywords event_cls now kwargs
          | None =>
              match event_cls_name event_decorator with
              | None => raise AssertionError
              | Some "" => raise AssertionError
              | Some name =>
                  let* aggregate := get in
                  if instance_has aggregate name then raise TypeError
                  else
                    match class_events name with
                    | None => raise (AttributeError name)
                    | Some event_cls =>
                        trigger_event_with_keywords event_cls now kwargs
                    end
              end
          end
      end
  end.

(** ** Commands, collections and replay *)

(** What a caller does with an aggregate: trigger an event, or collect the
    pending events. *)
Inductive Operation :=
  | Trigger (c : Command)
  | Collect.

(** The operations run one after the other (a failed trigger is caught and
    the next operation follows); the result is the lists that the
    [collect_events] calls returned, in order, and the aggregate at the end. *)
Fixpoint run_operations (ops : list Operation) (self : Aggregate)
    : list (list DomainEvent) * Aggregate :=
  match ops with
  | [] => ([], self)
  | Trigger c :: ops' =>
      run_operations ops'
        (trigger_event (cmd_class c) (cmd_now c) (cmd_kwargs c) self).2
  | Collect :: ops' =>
      let '(r, self') := collect_events self in
      let '(collected, self'') := run_operations ops' self' in
      (match r with inr events => events | inl _ => [] end :: collected, self'')
  end.

(** [domain_event.mutate(aggregate)] for an event of [event_class], with the
    value it returns. *)
Definition DomainEvent_mutate (resolve_topic : string → option AggregateClass)
    (event_class : EventClass) (self : DomainEvent)
    (aggregate : option Aggregate) : Exn + Aggregate :=
  if ec_is_created event_class
  then AggregateCreated_mutate resolve_topic self aggregate
  else
    match AggregateEvent_mutate_opt event_class self aggregate with
    | (inr _, Some aggregate') => inr aggregate'
    | (inl e, _) => inl e
    | (inr _, None) => inl AssertionError
    end.

(** Replaying events: each event mutates what the event before it returned,
    the first one mutates [None]. *)
Fixpoint replay (resolve_topic : string → option AggregateClass)
    (events : list (EventClass * DomainEvent)) (aggregate : option Aggregate)
    : Exn + option Aggregate :=
  match events with
  | [] => inr aggregate
  | (event_class, domain_event) :: events' =>
      match DomainEvent_mutate resolve_topic event_class domain_event aggregate with
      | inl e => inl e
      | inr aggregate' => replay resolve_topic events' (Some aggregate')
      end
  end.



(** An [apply], and an [__init__], that leaves one part of the aggregate as
    it found it, whether it returns or raises: [field] is [Aggregate_id],
    [version] or [pending_events] below. *)
Definition apply_keeps {A} (field : Aggregate → A) (event_class : EventClass)
    : Prop :=
  ∀ e aggregate,
    field (result_state (ec_apply event_class e aggregate)) = field aggregate.

Definition init_keeps {A} (field : ObjectDict → A) (cls : AggregateClass)
    : Prop :=
  ∀ kwargs d d', cls_init cls kwargs d = inr d' → field d' = field d.

(** Application code that leaves alone what [__base_init__] set up: the id,
    the version and the list of pending events. *)
Definition apply_keeps_base (event_class : EventClass) : Prop :=
  apply_keeps Aggregate_id event_class
  ∧ apply_keeps version event_class
  ∧ apply_keeps pending_events event_class.

Definition init_keeps_base (cls : AggregateClass) : Prop :=
  init_keeps dict_id cls
  ∧ init_keeps dict_version cls
  ∧ init_keeps dict_pending_events cls.

(** No parameter without a default follows a parameter with a default. *)
Fixpoint defaults_last (parameters : list MethodParameter) : bool :=
  match parameters with
  | [] => true
  | p :: parameters' =>
      match param_default p with
      | Some _ => forallb (λ q, bool_decide (is_Some (param_default q))) parameters'
      | None => defaults_last parameters'
      end
  end.

(** ** A command method used in the examples *)

(** [def set_name(self, name, nickname=None, *, loud)], which stores the
    name. *)
Definition set_name_parameters : list MethodParameter :=
  [ {| param_name := "self"; param_kind := POSITIONAL_OR_KEYWORD;
       param_default := None |};
    {| param_name := "name"; param_kind := POSITIONAL_OR_KEYWORD;
       param_default := None |};
    {| param_name := "nickname"; param_kind := POSITIONAL_OR_KEYWORD;
       param_default := Some VNone |};
    {| param_name := "loud"; param_kind := KEYWORD_ONLY;
       param_default := None |} ].




(** Lookups through inserts and deletes, key by key. *)
Ltac dict_lookup :=
  repeat (rewrite lookup_insert || rewrite lookup_delete);
  repeat case_decide; try discriminate; subst; try done; try congruence.

(** A decidable statement about concrete data, decided by evaluation. *)
Ltac by_compute := apply (bool_decide_unpack _); vm_compute; exact I.

Ltac dict_eq :=
  let k := fresh "k" in apply map_eq; intros k; dict_lookup.

(** * Theorems *)

(** ** AggregateEvent.mutate *)

Section Mutate.

Variable event_class : EventClass.
Variable self : DomainEvent.
Variable aggregate : Aggregate.

Lemma mutate_id_mismatch :
  originator_id self ≠ Aggregate_id aggregate →
  AggregateEvent_mutate event_class self aggregate
  = (inl (OriginatorIDError (originator_id self) (Aggregate_id aggregate)),
     aggregate).
Proof.
  intros Hid. unfold AggregateEvent_mutate, bind, get; simpl.
  by rewrite bool_decide_eq_true_2.
Qed.

Lemma mutate_version_mismatch :
  originator_id self = Aggregate_id aggregate →
  originator_version self ≠ version aggregate + 1 →
  AggregateEvent_mutate event_class self aggregate
  = (inl (OriginatorVersionError (originator_version self)
            (version aggregate + 1)), aggregate).
Proof.
  intros Hid Hv. unfold AggregateEvent_mutate, bind, get; simpl.
  rewrite bool_decide_eq_false_2 by (intros H; by apply H).
  by rewrite bool_decide_eq_true_2.
Qed.

End Mutate.

(** C1. [AggregateEvent.mutate] on an existing aggregate: an event of another
    originator raises [OriginatorIDError]; an event of this originator whose
    version is not [aggregate.version + 1] raises [OriginatorVersionError];
    in both cases the aggregate object is exactly as it was before the call
    (version, modified_on, pending events and every other attribute). *)
Theorem C1_mutate_rejects_before_mutation
    (event_class : EventClass) (self : DomainEvent) (aggregate : Aggregate) :
  (originator_id self ≠ Aggregate_id aggregate →
   AggregateEvent_mutate_opt event_class self (Some aggregate)
   = (inl (OriginatorIDError (originator_id self) (Aggregate_id aggregate)),
      Some aggregate))
  ∧ (originator_id self = Aggregate_id aggregate →
     originator_version self ≠ version aggregate + 1 →
     AggregateEvent_mutate_opt event_class self (Some aggregate)
     = (inl (OriginatorVersionError (originator_version self)
               (version aggregate + 1)),
        Some aggregate)).
Proof.
  unfold AggregateEvent_mutate_opt. split.
  - intros Hid. by rewrite mutate_id_mismatch.
  - intros Hid Hv. by rewrite mutate_version_mismatch.
Qed.

Lemma C1_witness :
  AggregateEvent_mutate_opt NameChanged (renamed 8%N 2) (Some fido)
  = (inl (OriginatorIDError 8%N 7%N), Some fido)
  ∧ AggregateEvent_mutate_opt NameChanged (renamed 7%N 5) (Some fido)
    = (inl (OriginatorVersionError 5 2), Some fido).
Proof.
  split.
  - apply (proj1 (C1_mutate_rejects_before_mutation NameChanged (renamed 8%N 2) fido)).
    vm_compute. discriminate.
  - apply (proj2 (C1_mutate_rejects_before_mutation NameChanged (renamed 7%N 5) fido)).
    + reflexivity.
    + vm_compute. discriminate.
Defined.

(** C10. When both the originator id and the originator version of the event
    are wrong, [AggregateEvent.mutate] raises [OriginatorIDError] and not
    [OriginatorVersionError]: the id is compared first. *)
Theorem C10_id_check_precedes_version_check
    (event_class : EventClass) (self : DomainEvent) (aggregate : Aggregate) :
  originator_id self ≠ Aggregate_id aggregate →
  originator_version self ≠ version aggregate + 1 →
  (AggregateEvent_mutate event_class self aggregate).1
  = inl (OriginatorIDError (originator_id self) (Aggregate_id aggregate))
  ∧ ∀ v n,
      (AggregateEvent_mutate event_class self aggregate).1
      ≠ inl (OriginatorVersionError v n).
Proof.
  intros Hid _. rewrite mutate_id_mismatch by done. simpl.
  split; [done | discriminate].
Qed.

Lemma C10_witness :
  (AggregateEvent_mutate NameChanged (renamed 8%N 5) fido).1
  = inl (OriginatorIDError 8%N 7%N)
  ∧ ∀ v n,
      (AggregateEvent_mutate NameChanged (renamed 8%N 5) fido).1
      ≠ inl (OriginatorVersionError v n).
Proof.
  apply (C10_id_check_precedes_version_check NameChanged (renamed 8%N 5) fido);
    vm_compute; discriminate.
Defined.

(** ** Event construction and Aggregate.trigger_event *)

Lemma event_new_inr event_class oid ver ts explicit kwargs e :
  event_new event_class oid ver ts explicit kwargs = inr e →
  event_class_name e = ec_name event_class
  ∧ originator_id e = oid
  ∧ originator_version e = ver
  ∧ timestamp e = ts
  ∧ fields e = explicit ∪ kwargs ∪ ec_defaults event_class.
Proof.
  unfold event_new. intros H.
  repeat (case_match; [discriminate |]).
  by inversion H.
Qed.

(** What [trigger_event] does, case by case: [apply] runs on the aggregate
    and leaves it as [aggregate']; the version and [modified_on] are set, and
    the event is appended, on what [apply] left. *)
Lemma trigger_event_cases event_class now kwargs self :
  match event_new event_class (Aggregate_id self) (version self + 1) now ∅ kwargs with
  | inl _ => trigger_event event_class now kwargs self = (inl TypeError, self)
  | inr new_event =>
      if ec_is_created event_class
      then trigger_event event_class now kwargs self = (inl AssertionError, self)
      else
        match ec_apply event_class new_event self with
        | Returned VNone aggregate' =>
            trigger_event event_class now kwargs self
            = (inr tt,
               set_pending_events (pending_events aggregate' ++ [new_event])
                 (set_modified_on (timestamp new_event)
                    (set_version (originator_version new_event) aggregate')))
        | Returned _ aggregate' =>
            trigger_event event_class now kwargs self
            = (inl TypeError, aggregate')
        | Raised e aggregate' =>
            trigger_event event_class now kwargs self = (inl e, aggregate')
        end
  end.
Proof.
  unfold trigger_event, bind, get; simpl.
  destruct (event_new _ _ _ _ _ _) as [exn|new_event] eqn:Hnew; [done|].
  apply event_new_inr in Hnew as (_ & Hid & Hver & _ & _).
  unfold mutate_existing.
  destruct (ec_is_created event_class); [done|].
  unfold AggregateEvent_mutate, bind, get; simpl.
  rewrite bool_decide_eq_false_2 by (intros H; by apply H).
  rewrite bool_decide_eq_false_2 by (intros H; by apply H).
  destruct (ec_apply event_class new_event self) as [[] aggregate'|exn aggregate'];
    done.
Qed.

(** A [trigger_event] that returns constructed an event, whose [apply]
    returned [None]. *)
Lemma trigger_event_inr event_class now kwargs self self' :
  trigger_event event_class now kwargs self = (inr (), self') →
  ∃ new_event aggregate',
    event_new event_class (Aggregate_id self) (version self + 1) now ∅ kwargs
    = inr new_event
    ∧ ec_is_created event_class = false
    ∧ ec_apply event_class new_event self = Returned VNone aggregate'
    ∧ self'
      = set_pending_events (pending_events aggregate' ++ [new_event])
          (set_modified_on now (set_version (version self + 1) aggregate')).
Proof.
  intros Hrun.
  pose proof (trigger_event_cases event_class now kwargs self) as Hcases.
  destruct (event_new _ _ _ _ _ _) as [exn|new_event] eqn:Hnew.
  { rewrite Hcases in Hrun. discriminate. }
  destruct (ec_is_created event_class).
  { rewrite Hcases in Hrun. discriminate. }
  apply event_new_inr in Hnew as (_ & _ & Hver & Hts & _).
  destruct (ec_apply event_class new_event self) as [[] aggregate'|exn aggregate']
    eqn:Happly; rewrite Hcases in Hrun; try discriminate.
  inversion Hrun. exists new_event, aggregate'. by rewrite Hver, Hts.
Qed.

(** A [trigger_event] that raises leaves the aggregate as it was, or as the
    [apply] of the event left it. *)
Lemma trigger_event_inl event_class now kwargs self e self' :
  trigger_event event_class now kwargs self = (inl e, self') →
  self' = self
  ∨ ∃ new_event, self' = result_state (ec_apply event_class new_event self).
Proof.
  intros Hrun.
  pose proof (trigger_event_cases event_class now kwargs self) as Hcases.
  destruct (event_new _ _ _ _ _ _) as [exn|new_event] eqn:Hnew.
  { rewrite Hcases in Hrun. left. by inversion Hrun. }
  destruct (ec_is_created event_class).
  { rewrite Hcases in Hrun. left. by inversion Hrun. }
  right. exists new_event.
  destruct (ec_apply event_class new_event self) as [[] aggregate'|exn aggregate'];
    rewrite Hcases in Hrun; try discriminate; by inversion Hrun.
Qed.

(** The effect of one [trigger_event].  When it returns, the version is one
    more, whatever [apply] did; everything else depends on what the [apply]
    of the event class leaves alone. *)
Lemma trigger_event_effect event_class now kwargs self r self' :
  trigger_event event_class now kwargs self = (r, self') →
  (apply_keeps Aggregate_id event_class →
   Aggregate_id self' = Aggregate_id self)
  ∧ match r with
    | inr _ =>
        version self' = version self + 1
        ∧ ∃ new_event,
            event_class_name new_event = ec_name event_class
            ∧ originator_id new_event = Aggregate_id self
            ∧ originator_version new_event = version self + 1
            ∧ timestamp new_event = now
            ∧ (apply_keeps pending_events event_class →
               pending_events self' = pending_events self ++ [new_event])
    | inl _ =>
        (apply_keeps version event_class → version self' = version self)
        ∧ (apply_keeps pending_events event_class →
           pending_events self' = pending_events self)
    end.
Proof.
  intros Hrun. destruct r as [e|[]].
  - apply trigger_event_inl in Hrun as [->|[new_event ->]].
    + by repeat split.
    + repeat split; intros Hkeeps; apply Hkeeps.
  - apply trigger_event_inr in Hrun
      as (new_event & aggregate' & Hnew & _ & Happly & ->).
    apply event_new_inr in Hnew as (Hname & Hid & Hver & Hts & _).
    split; [|split; [done|]].
    + intros Hkeeps. specialize (Hkeeps new_event self).
      by rewrite Happly in Hkeeps.
    + exists new_event. do 4 (split; [done|]).
      intros Hkeeps. specialize (Hkeeps new_event self).
      rewrite Happly in Hkeeps. simpl in Hkeeps.
      unfold pending_events in *. simpl. by rewrite Hkeeps.
Qed.

(** A run of commands whose [apply] methods leave the version alone: the
    version counts the commands that succeeded. *)
Lemma run_commands_version cmds : ∀ self done self',
  Forall (λ c, apply_keeps version (cmd_class c)) cmds →
  run_commands cmds self = (done, self') →
  version self' = version self + Z.of_nat (length done).
Proof.
  induction cmds as [|c cmds IH]; intros self done self' Hkeep Hrun;
    simpl in Hrun.
  - inversion Hrun; subst. simpl. lia.
  - apply Forall_cons in Hkeep as [Hc Hkeep].
    destruct (trigger_event _ _ _ self) as [r self1] eqn:Htrig.
    apply trigger_event_effect in Htrig as [_ Hr].
    destruct r as [exn|[]].
    + destruct Hr as [Hv1 _]. apply IH in Hrun; [|done].
      rewrite Hrun, Hv1; done.
    + destruct Hr as [Hv1 _].
      destruct (run_commands cmds self1) as [done1 self2] eqn:Hrest.
      inversion Hrun; subst done self'; clear Hrun.
      apply IH in Hrest; [|done]. rewrite Hrest, Hv1. simpl length. lia.
Qed.

(** A run of commands whose [apply] methods leave the id alone keeps it. *)
Lemma run_commands_id cmds : ∀ self done self',
  Forall (λ c, apply_keeps Aggregate_id (cmd_class c)) cmds →
  run_commands cmds self = (done, self') →
  Aggregate_id self' = Aggregate_id self.
Proof.
  induction cmds as [|c cmds IH]; intros self done self' Hkeep Hrun;
    simpl in Hrun.
  - by inversion Hrun.
  - apply Forall_cons in Hkeep as [Hc Hkeep].
    destruct (trigger_event _ _ _ self) as [r self1] eqn:Htrig.
    apply trigger_event_effect in Htrig as [Hid1 _].
    destruct r as [exn|[]].
    + apply IH in Hrun; [|done]. rewrite Hrun. by apply Hid1.
    + destruct (run_commands cmds self1) as [done1 self2] eqn:Hrest.
      inversion Hrun; subst done self'; clear Hrun.
      apply IH in Hrest; [|done]. rewrite Hrest. by apply Hid1.
Qed.


(** ** MetaAggregate._create *)

(** An [AggregateCreated.mutate] that returns resolved the topic of the
    event and ran the [__init__] of the class on the instance that
    [__base_init__] initialised. *)
Lemma created_mutate_inr resolve_topic self agg :
  AggregateCreated_mutate resolve_topic self None = inr agg →
  ∃ topic aggregate_class d,
    fields self !! "originator_topic" = Some (VStr topic)
    ∧ resolve_topic topic = Some aggregate_class
    ∧ cls_init aggregate_class
        (let kwargs := delete "originator_topic" (fields self) in
         if init_mentions_id aggregate_class
         then <["id" := VUuid (originator_id self)]> kwargs
         else kwargs)
        (__dict__ (__base_init__ aggregate_class (originator_id self)
                     (originator_version self) (timestamp self)))
      = inr d
    ∧ agg = set_dict d (__base_init__ aggregate_class (originator_id self)
                          (originator_version self) (timestamp self)).
Proof.
  unfold AggregateCreated_mutate. intros H.
  destruct (fields self !! "originator_topic") as [[| |topic| |]|];
    try discriminate.
  destruct (resolve_topic topic) as [aggregate_class|] eqn:Hresolve;
    [|discriminate].
  destruct (cls_init aggregate_class _ _) as [exn|d] eqn:Hinit;
    [discriminate|].
  inversion H. by exists topic, aggregate_class, d.
Qed.

(** What a successful [_create] went through. *)
Lemma create_parts resolve_topic cls event_class id uuid4 now kwargs agg :
  _create resolve_topic cls event_class id uuid4 now kwargs = inr agg →
  ec_is_created event_class = true
  ∧ ∃ oid created_event agg0,
      match id with
      | Some i => inr i
      | None => cls_create_id cls
                  (filter (λ kv, kv.1 ∈ _create_id_param_names cls) kwargs)
                  uuid4
      end = inr oid
      ∧ event_new event_class oid (getattr_INITIAL_VERSION cls) now
          {["originator_topic" := VStr (cls_topic cls)]} kwargs
        = inr created_event
      ∧ AggregateCreated_mutate resolve_topic created_event None = inr agg0
      ∧ agg = set_pending_events (pending_events agg0 ++ [created_event]) agg0.
Proof.
  unfold _create. intros H.
  destruct (match id with Some i => inr i | None => _ end) as [exn|oid];
    [discriminate|].
  destruct (event_new _ _ _ _ _ _) as [exn|created_event] eqn:Hnew;
    [discriminate|].
  destruct (ec_is_created event_class); [|discriminate].
  destruct (AggregateCreated_mutate _ _ _) as [exn|agg0] eqn:Hmut;
    [discriminate|].
  split; [done|]. exists oid, created_event, agg0. by inversion H.
Qed.

(** The topic written into an event is the one found there. *)
Lemma event_new_explicit event_class oid ver ts explicit kwargs e k v :
  event_new event_class oid ver ts explicit kwargs = inr e →
  explicit !! k = Some v →
  fields e !! k = Some v.
Proof.
  intros Hnew Hk. apply event_new_inr in Hnew as (_ & _ & _ & _ & ->).
  by do 2 apply lookup_union_Some_l.
Qed.

(** The aggregate that [_create] returns: the class that the topic resolves
    to, the created event, and what depends on the [__init__] of that class
    leaving a part of the instance alone. *)
Lemma create_inr resolve_topic cls event_class id uuid4 now kwargs agg :
  _create resolve_topic cls event_class id uuid4 now kwargs = inr agg →
  ∃ aggregate_class created_event,
    resolve_topic (cls_topic cls) = Some aggregate_class
    ∧ event_class_name created_event = ec_name event_class
    ∧ originator_version created_event = getattr_INITIAL_VERSION cls
    ∧ timestamp created_event = now
    ∧ (init_keeps dict_version aggregate_class →
       version agg = getattr_INITIAL_VERSION cls)
    ∧ (init_keeps dict_id aggregate_class →
       Aggregate_id agg = originator_id created_event)
    ∧ (init_keeps dict_pending_events aggregate_class →
       pending_events agg = [created_event]).
Proof.
  intros H.
  apply create_parts in H as (_ & oid & created_event & agg0 & _ & Hnew & Hmut & ->).
  pose proof (event_new_explicit _ _ _ _ _ _ _ "originator_topic"
                (VStr (cls_topic cls)) Hnew (lookup_singleton_eq _ _)) as Htopic.
  apply event_new_inr in Hnew as (Hname & _ & Hver & Hts & _).
  apply created_mutate_inr in Hmut
    as (topic & aggregate_class & d & Htopic' & Hresolve & Hinit & ->).
  rewrite Htopic in Htopic'. inversion Htopic'; subst topic.
  exists aggregate_class, created_event. do 4 (split; [done|]).
  repeat split; intros Hkeeps; specialize (Hkeeps _ _ _ Hinit);
    unfold version, Aggregate_id, pending_events; simpl; rewrite Hkeeps;
    simpl; congruence.
Qed.

(** The [__init__] of [Dog] assigns the name and nothing else. *)
Lemma dog_init_keeps aggregate_class :
  dog_topics (cls_topic Dog) = Some aggregate_class →
  init_keeps dict_id aggregate_class
  ∧ init_keeps dict_version aggregate_class
  ∧ init_keeps dict_pending_events aggregate_class.
Proof.
  intros H. change (Some Dog = Some aggregate_class) in H.
  inversion H; subst aggregate_class.
  repeat split; intros kwargs d d' Hinit; cbn in Hinit;
    destruct (kwargs !! "name"); try discriminate;
    destruct (bool_decide _); try discriminate; by inversion Hinit.
Qed.

(** C2 as stated does not hold: the [apply] of [Rechipped] assigns
    [aggregate._id] and returns [None], so the command succeeds and the dog
    that was created with id 7 has id 8 afterwards. *)
Lemma C2_counterexample :
  ¬ born_at_one_and_counts dog_topics Dog Registered (Some 7%N) 0%N 100
      {["name" := VStr "Fido"]}
      [ {| cmd_class := Rechipped; cmd_now := 200; cmd_kwargs := ∅ |} ].
Proof.
  intros Hclaim.
  destruct (Hclaim fido
              (run_commands
                 [ {| cmd_class := Rechipped; cmd_now := 200;
                      cmd_kwargs := ∅ |} ] fido).1
              (run_commands
                 [ {| cmd_class := Rechipped; cmd_now := 200;
                      cmd_kwargs := ∅ |} ] fido).2)
    as (_ & _ & Hid).
  - vm_compute. reflexivity.
  - apply surjective_pairing.
  - vm_compute in Hid. discriminate.
Qed.

(** C2, amended. For an aggregate class that does not redefine
    [INITIAL_VERSION], with an [__init__] that leaves the version alone and
    commands whose [apply] methods leave the version and the id alone: the
    aggregate made by [_create] has version 1; a call of [trigger_event]
    that returns advances the version by exactly 1 (this whatever [apply]
    does); after any run of the commands on the new aggregate the version is
    1 plus the number of commands that succeeded, and the id is the one the
    aggregate was created with. *)
Theorem C2_version_counts_successful_commands
    (resolve_topic : string → option AggregateClass)
    (cls : AggregateClass) (event_class : EventClass) (id : option UUID)
    (uuid4 : UUID) (now : datetime) (kwargs : Dict)
    (agg : Aggregate) (cmds done : list Command) (self' : Aggregate) :
  initial_version cls = None →
  (∀ aggregate_class,
     resolve_topic (cls_topic cls) = Some aggregate_class →
     init_keeps dict_version aggregate_class) →
  Forall (λ c, apply_keeps version (cmd_class c)
               ∧ apply_keeps Aggregate_id (cmd_class c)) cmds →
  _create resolve_topic cls event_class id uuid4 now kwargs = inr agg →
  run_commands cmds agg = (done, self') →
  version agg = 1
  ∧ (∀ ec t kw s s',
       trigger_event ec t kw s = (inr tt, s') → version s' = version s + 1)
  ∧ version self' = 1 + Z.of_nat (length done)
  ∧ Aggregate_id self' = Aggregate_id agg.
Proof.
  intros Hinitial Hinit Hkeep Hcreate Hrun.
  apply create_inr in Hcreate
    as (aggregate_class & created_event & Hresolve & _ & _ & _ & Hv & _).
  specialize (Hv (Hinit _ Hresolve)).
  unfold getattr_INITIAL_VERSION in Hv. rewrite Hinitial in Hv.
  split; [done|]. split; [|split].
  - intros ec t kw s s' Htrig.
    by apply trigger_event_effect in Htrig as (_ & ? & _).
  - rewrite (run_commands_version cmds agg done self'); [by rewrite Hv| |done].
    eapply Forall_impl; [exact Hkeep|]. by intros c [? _].
  - apply (run_commands_id cmds agg done self'); [|done].
    eapply Forall_impl; [exact Hkeep|]. by intros c [_ ?].
Qed.

Lemma C2_witness :
  version (run_commands dog_commands fido).2
  = 1 + Z.of_nat (length (run_commands dog_commands fido).1)
  ∧ length (run_commands dog_commands fido).1 = 2%nat
  ∧ Aggregate_id (run_commands dog_commands fido).2 = 7%N.
Proof.
  destruct (C2_version_counts_successful_commands dog_topics Dog Registered
              (Some 7%N) 0%N 100 {["name" := VStr "Fido"]} fido dog_commands
              (run_commands dog_commands fido).1
              (run_commands dog_commands fido).2)
    as (_ & _ & Hv & Hid).
  - reflexivity.
  - intros aggregate_class Hresolve. by apply dog_init_keeps.
  - repeat constructor; intros e aggregate; reflexivity.
  - vm_compute. reflexivity.
  - apply surjective_pairing.
  - split; [exact Hv | split; [vm_compute; reflexivity | exact Hid]].
Defined.




(** ** Aggregate.collect_events *)

Lemma collect_loop_spec pending : ∀ collected,
  collect_loop pending collected = (collected ++ pending, []).
Proof.
  induction pending as [|e pending IH]; intros collected; simpl.
  - by rewrite app_nil_r.
  - by rewrite IH, <- app_assoc.
Qed.

Lemma collect_events_spec self :
  collect_events self = (inr (pending_events self), set_pending_events [] self).
Proof.
  unfold collect_events, bind, get, modify, ret; simpl.
  by rewrite collect_loop_spec.
Qed.




(** ** Snapshots *)

Lemma upcast_loop_eq cls from_version class_version aggregate_state :
  upcast_loop cls from_version class_version aggregate_state
  = if decide (from_version < class_version)
    then match cls_methods cls !! upcast_name from_version with
         | None => inl (AttributeError (upcast_name from_version))
         | Some upcast =>
             upcast_loop cls (from_version + 1) class_version
               (upcast aggregate_state)
         end
    else inr aggregate_state.
Proof.
  rewrite upcast_loop_equation_1.
  by destruct (decide (from_version < class_version)).
Qed.

(** No upcast runs when the recorded version is not below the class's. *)
Lemma upcast_loop_done cls from_version class_version aggregate_state :
  class_version ≤ from_version →
  upcast_loop cls from_version class_version aggregate_state
  = inr aggregate_state.
Proof.
  intros Hle. rewrite upcast_loop_eq. case_decide; [lia | done].
Qed.



(** C7 as stated does not hold: a dog with an instance attribute named
    [class_version] comes back from its own snapshot without it, because
    [Snapshot.mutate] pops that key as the recorded class version. *)
Lemma C7_counterexample : ¬ snapshot_restores dog_topics 300 fido_tagged.
Proof.
  intros (A' & Hmut & _ & _ & Hdict & _).
  vm_compute in Hmut. inversion Hmut; subst A'; clear Hmut.
  apply (f_equal (λ d : Dict, d !! "class_version")) in Hdict.
  vm_compute in Hdict. discriminate.
Qed.

(** C7, amended. For an aggregate whose class is the one its topic resolves
    to and which has no instance attribute named [class_version] (the key
    under which the snapshot state records the class version),
    [Snapshot.take] followed by [Snapshot.mutate(None)] returns an aggregate
    of the same type with the same id, the same version and the same
    [__dict__] apart from the pending events, which are empty. *)
Theorem C7_snapshot_round_trip
    (resolve_topic : string → option AggregateClass) (now : datetime)
    (A : Aggregate) :
  resolve_topic (cls_topic (agg_type A)) = Some (agg_type A) →
  attrs A !! "class_version" = None →
  ∃ A',
    Snapshot_mutate resolve_topic (Snapshot_take now A) None = inr A'
    ∧ agg_type A' = agg_type A
    ∧ Aggregate_id A' = Aggregate_id A
    ∧ version A' = version A
    ∧ dict_without_pending A' = dict_without_pending A
    ∧ created_on A' = created_on A
    ∧ modified_on A' = modified_on A
    ∧ pending_events A' = [].
Proof.
  intros Hresolve Hfree.
  unfold Snapshot_mutate, Snapshot_take; simpl. rewrite Hresolve.
  destruct (bool_decide (getattr_class_version (agg_type A) > 1)) eqn:Hcv.
  - apply bool_decide_eq_true_1 in Hcv.
    rewrite !lookup_delete_ne, lookup_insert_eq by done. simpl.
    rewrite upcast_loop_done by lia.
    eexists. split; [done|].
    unfold dict_without_pending, created_on, modified_on; simpl.
    repeat split; [dict_eq | dict_lookup | dict_lookup].
  - apply bool_decide_eq_false_1 in Hcv.
    rewrite !lookup_delete_ne, Hfree by done. simpl.
    rewrite upcast_loop_done by lia.
    eexists. split; [done|].
    unfold dict_without_pending, created_on, modified_on; simpl.
    repeat split; [dict_eq | dict_lookup | dict_lookup].
Qed.

Lemma C7_witness :
  ∃ A',
    Snapshot_mutate dog_topics (Snapshot_take 300 fido) None = inr A'
    ∧ agg_type A' = Dog
    ∧ Aggregate_id A' = 7%N
    ∧ version A' = 1
    ∧ dict_without_pending A' = dict_without_pending fido
    ∧ pending_events A' = [].
Proof.
  destruct (C7_snapshot_round_trip dog_topics 300 fido)
    as (A' & Hmut & Hty & Hid & Hv & Hdict & _ & _ & Hp).
  - vm_compute. reflexivity.
  - vm_compute. reflexivity.
  - exists A'. by repeat split.
Defined.



(** ** The recorder *)

Section RecorderFacts.

Import Recorder.

Lemma max_notification_id_nonneg recorder : 0 ≤ max_notification_id recorder.
Proof. induction recorder; simpl; lia. Qed.

Lemma max_notification_id_app r1 r2 :
  max_notification_id (r1 ++ r2)
  = Z.max (max_notification_id r1) (max_notification_id r2).
Proof.
  induction r1 as [|n r1 IH]; simpl.
  - pose proof (max_notification_id_nonneg r2). lia.
  - unfold max_notification_id in *. rewrite IH. lia.
Qed.

Lemma max_notification_id_dense recorder :
  dense recorder → max_notification_id recorder = Z.of_nat (length recorder).
Proof.
  unfold dense. induction recorder as [|n recorder IH] using rev_ind;
    [done|].
  rewrite fmap_app, length_app, Nat.add_1_r, seqZ_S. simpl.
  intros Hids. apply app_inj_2 in Hids as [Hids Hlast]; [|done].
  rewrite max_notification_id_app, IH by done. simpl.
  inversion Hlast. lia.
Qed.

Lemma strongly_sorted_seqZ m (n : nat) :
  StronglySorted Z.lt (seqZ m (Z.of_nat n)).
Proof.
  revert m. induction n as [|n IH]; intros m.
  - rewrite seqZ_nil by lia. constructor.
  - rewrite seqZ_cons by lia. constructor.
    + replace (Z.pred (Z.of_nat (S n))) with (Z.of_nat n) by lia. apply IH.
    + apply List.Forall_forall. intros x Hx.
      rewrite <- list_elem_of_In in Hx. apply elem_of_seqZ in Hx. lia.
Qed.

(** What a successful [insert_events] returns and stores. *)
Lemma insert_events_inr batch recorder returning recorder' :
  insert_events batch recorder = (inr returning, recorder') →
  returning.*1 = batch
  ∧ returning.*2
    = seqZ (max_notification_id recorder + 1) (Z.of_nat (length batch))
  ∧ id <$> recorder' = (id <$> recorder) ++ returning.*2
  ∧ stored <$> recorder' = (stored <$> recorder) ++ batch.
Proof.
  unfold insert_events. case_match; [|discriminate].
  intros Heq; inversion Heq; subst; clear Heq.
  set (returning := zip batch _).
  assert (returning.*1 = batch) as Hfst
    by (apply fst_zip; rewrite length_seqZ; lia).
  assert (returning.*2
          = seqZ (max_notification_id recorder + 1) (Z.of_nat (length batch)))
    as Hsnd by (apply snd_zip; rewrite length_seqZ; lia).
  rewrite !fmap_app, <- !list_fmap_compose.
  split; [done|]. split; [done|]. split; [done|].
  f_equal. by transitivity (returning.*1).
Qed.

Lemma insert_events_inl batch recorder e recorder' :
  insert_events batch recorder = (inl e, recorder') →
  e = ConflictError ∧ recorder' = recorder.
Proof.
  unfold insert_events. case_match; [discriminate|].
  intros Heq. inversion Heq. by destruct e.
Qed.

Lemma insert_events_dense batch recorder :
  dense recorder → dense (insert_events batch recorder).2.
Proof.
  intros Hdense.
  destruct (insert_events batch recorder) as [[e|returning] recorder']
    eqn:Hins; simpl.
  - by apply insert_events_inl in Hins as [_ ->].
  - apply insert_events_inr in Hins as (_ & Hids & Hall & _).
    unfold dense. rewrite Hall, Hids.
    rewrite max_notification_id_dense by done.
    assert (length recorder' = (length recorder + length batch)%nat) as ->.
    { rewrite <- (length_fmap id recorder'), Hall, length_app, length_fmap.
      rewrite Hids, length_seqZ. lia. }
    rewrite Nat2Z.inj_add, seqZ_app by lia.
    rewrite Hdense. do 2 f_equal. lia.
Qed.

Lemma reachable_dense recorder : reachable recorder → dense recorder.
Proof.
  induction 1 as [|batch recorder _ IH]; [done|].
  by apply insert_events_dense.
Qed.

(** A run of inserts without conflict, from a dense store. *)
Lemma insert_all_spec batches : ∀ recorder returned recorder',
  dense recorder →
  insert_all batches recorder = Some (returned, recorder') →
  dense recorder'
  ∧ stored <$> recorder' = (stored <$> recorder) ++ concat batches
  ∧ Forall2 (λ batch returning,
               returning.*1 = batch
               ∧ StronglySorted Z.lt returning.*2
               ∧ ∃ first,
                   returning.*2 = seqZ first (Z.of_nat (length batch)))
      batches returned.
Proof.
  induction batches as [|batch batches IH];
    intros recorder returned recorder' Hdense Hall; simpl in Hall.
  - inversion Hall; subst. by rewrite app_nil_r.
  - destruct (insert_events batch recorder) as [[e|returning] recorder1]
      eqn:Hins; [discriminate|].
    destruct (insert_all batches recorder1) as [[returned1 recorder2]|]
      eqn:Hrest; [|discriminate].
    inversion Hall; subst; clear Hall.
    pose proof (insert_events_dense batch recorder Hdense) as Hdense1.
    rewrite Hins in Hdense1; simpl in Hdense1.
    apply insert_events_inr in Hins as (Hfst & Hsnd & _ & Hstored).
    apply IH in Hrest as (Hdense2 & Hstored2 & Hrets); [|done].
    split; [done|]. split.
    + rewrite Hstored2, Hstored. simpl. by rewrite <- app_assoc.
    + constructor; [|done]. split; [done|]. rewrite Hsnd.
      split; [apply strongly_sorted_seqZ | by eexists].
Qed.

Lemma filter_all {A} (P : A → Prop) `{!∀ x, Decision (P x)} (l : list A) :
  (∀ x, x ∈ l → P x) → filter P l = l.
Proof.
  induction l as [|x l IH]; intros Hall; [done|].
  rewrite filter_cons, decide_True by (apply Hall; left).
  f_equal. apply IH. intros y Hy. apply Hall. by right.
Qed.

Lemma select_notifications_all recorder :
  dense recorder →
  select_notifications 1 (Z.of_nat (length recorder)) None None recorder
  = recorder.
Proof.
  intros Hdense. unfold select_notifications.
  assert (filter (selected 1 None None) recorder = recorder) as ->.
  { apply filter_all. intros n Hn. unfold selected.
    repeat split.
    apply (list_elem_of_fmap_2 id) in Hn. rewrite Hdense in Hn.
    apply elem_of_seqZ in Hn. lia. }
  apply take_ge. lia.
Qed.

(** *** Versions of one originator *)

Lemma versions_of_app oid h1 h2 :
  versions_of oid (h1 ++ h2) = versions_of oid h1 ++ versions_of oid h2.
Proof. unfold versions_of. by rewrite filter_app, fmap_app. Qed.

Lemma versions_of_singleton oid e :
  versions_of oid [e]
  = if decide (originator_id e = oid) then [originator_version e] else [].
Proof.
  unfold versions_of. rewrite filter_cons, filter_nil. by case_decide.
Qed.

Lemma elem_of_versions_of oid v history :
  v ∈ versions_of oid history
  ↔ ∃ e, e ∈ history ∧ originator_id e = oid ∧ originator_version e = v.
Proof.
  unfold versions_of. rewrite list_elem_of_fmap. split.
  - intros (e & -> & He). apply list_elem_of_filter in He as [? ?]. eauto.
  - intros (e & He & Hoid & <-). exists e. split; [done|].
    by apply list_elem_of_filter.
Qed.

Lemma seqZ_app_inv (l1 l2 : list Z) first :
  l1 ++ l2 = seqZ first (Z.of_nat (length (l1 ++ l2))) →
  l1 = seqZ first (Z.of_nat (length l1))
  ∧ l2 = seqZ (first + Z.of_nat (length l1)) (Z.of_nat (length l2)).
Proof.
  rewrite length_app, Nat2Z.inj_add, seqZ_app by lia.
  intros H. apply app_inj_1 in H; [done|].
  rewrite length_seqZ. lia.
Qed.

Lemma last_seqZ first (n : nat) :
  last (seqZ first (Z.of_nat (S n))) = Some (first + Z.of_nat n).
Proof. by rewrite seqZ_S, last_snoc. Qed.

Lemma contiguous_app_l h t : contiguous (h ++ t) → contiguous h.
Proof.
  intros Hc oid. destruct (Hc oid) as [first Hfirst].
  rewrite versions_of_app in Hfirst.
  apply seqZ_app_inv in Hfirst as [? _]. by exists first.
Qed.

(** Appending one event keeps the versions consecutive exactly when the
    event is no duplicate and leaves no gap. *)
Lemma contiguous_snoc h e :
  contiguous h →
  contiguous (h ++ [e])
  ↔ is_duplicate h e = false ∧ leaves_gap h e = false.
Proof.
  intros Hc.
  destruct (Hc (originator_id e)) as [first Hfirst].
  unfold is_duplicate, leaves_gap.
  destruct (versions_of (originator_id e) h) as [|v0 vs] eqn:Hvs
    using rev_ind.
  - (* the originator has no history *)
    simpl. split.
    + intros _. split; [|done].
      apply bool_decide_eq_false_2. intros Hex.
      apply Exists_exists in Hex as (e' & He' & Hoid & Hver).
      assert (originator_version e' ∈ versions_of (originator_id e) h)
        as Hin by (apply elem_of_versions_of; eauto).
      rewrite Hvs in Hin. by apply not_elem_of_nil in Hin.
    + intros _ oid. rewrite versions_of_app, versions_of_singleton.
      case_decide as Hoid.
      * subst oid. rewrite Hvs. simpl. exists (originator_version e).
        by rewrite seqZ_cons, seqZ_nil by lia.
      * rewrite app_nil_r. apply Hc.
  - (* the latest version of the originator is [v0] *)
    clear IHvs. rewrite last_snoc.
    rewrite length_app, Nat.add_1_r in Hfirst.
    pose proof Hfirst as Hfirst'.
    rewrite seqZ_S in Hfirst'.
    apply app_inj_2 in Hfirst' as [Hvs0 Hv0]; [|done].
    injection Hv0 as Hv0.
    split.
    + intros Hc'. destruct (Hc' (originator_id e)) as [first' Hfirst''].
      rewrite versions_of_app, versions_of_singleton, decide_True in Hfirst''
        by done.
      rewrite Hvs in Hfirst''.
      apply seqZ_app_inv in Hfirst'' as [Hl Hr].
      rewrite length_app, Nat.add_1_r in Hl, Hr. simpl in Hr.
      rewrite seqZ_cons, seqZ_nil in Hr by lia. injection Hr as Hr.
      assert (first' = first) as ->.
      { rewrite Hfirst in Hl.
        rewrite (seqZ_cons first), (seqZ_cons first') in Hl by lia.
        by injection Hl as -> _. }
      assert (originator_version e = v0 + 1) as Hnext by lia.
      split.
      * apply bool_decide_eq_false_2. intros Hex.
        apply Exists_exists in Hex as (e' & He' & Hoid & Hver).
        assert (originator_version e' ∈ versions_of (originator_id e) h)
          as Hin by (apply elem_of_versions_of; eauto).
        rewrite Hvs, Hfirst in Hin. apply elem_of_seqZ in Hin. lia.
      * apply bool_decide_eq_false_2. intros Hne. by apply Hne.
    + intros [_ Hgap]. apply bool_decide_eq_false_1 in Hgap.
      assert (originator_version e = v0 + 1) as Hnext
        by (destruct (decide (originator_version e = v0 + 1)); done).
      intros oid. rewrite versions_of_app, versions_of_singleton.
      case_decide as Hoid.
      * subst oid. exists first. rewrite Hvs.
        rewrite !length_app, !Nat.add_1_r.
        rewrite (seqZ_S first (S (length vs))), <- Hfirst.
        do 2 f_equal. lia.
      * rewrite app_nil_r. apply Hc.
Qed.

(** The check of [insert_events] passes exactly when the batch extends the
    history with consecutive versions. *)
Lemma conflict_free_spec batch : ∀ h,
  contiguous h →
  conflict_free h batch = true ↔ contiguous (h ++ batch).
Proof.
  induction batch as [|e batch IH]; intros h Hc; simpl.
  - by rewrite app_nil_r.
  - replace (h ++ e :: batch) with ((h ++ [e]) ++ batch)
      by (by rewrite <- app_assoc).
    rewrite !andb_true_iff, !negb_true_iff. split.
    + intros [[Hdup Hgap] Hrest].
      assert (contiguous (h ++ [e])) as Hc1 by by apply contiguous_snoc.
      by apply IH.
    + intros Hc'.
      assert (contiguous (h ++ [e])) as Hc1
        by by apply contiguous_app_l in Hc'.
      apply contiguous_snoc in Hc1 as Hchecks; [|done].
      split; [done|]. by apply IH.
Qed.

Lemma insert_events_contiguous batch recorder :
  contiguous (stored <$> recorder) →
  contiguous (stored <$> (insert_events batch recorder).2).
Proof.
  intros Hc.
  destruct (insert_events batch recorder) as [[e|returning] recorder']
    eqn:Hins; simpl.
  - by apply insert_events_inl in Hins as [_ ->].
  - pose proof Hins as Hok. unfold insert_events in Hok.
    destruct (conflict_free _ _) eqn:Hfree; [|discriminate].
    apply insert_events_inr in Hins as (_ & _ & _ & ->).
    by apply conflict_free_spec.
Qed.

Lemma reachable_contiguous recorder :
  reachable recorder → contiguous (stored <$> recorder).
Proof.
  induction 1 as [|batch recorder _ IH].
  - intros oid. exists 0. done.
  - by apply insert_events_contiguous.
Qed.

(** *** Order of the store *)

Lemma strongly_sorted_fmap_inv {A B} (f : A → B) (R : relation B) l :
  StronglySorted R (f <$> l) → StronglySorted (λ a b, R (f a) (f b)) l.
Proof.
  induction l as [|x l IH]; [constructor|].
  rewrite fmap_cons, !StronglySorted_cons, Forall_fmap.
  intros [Hhd Htl]. split; [done | by apply IH].
Qed.

Lemma strongly_sorted_filter {A} (R : relation A) (P : A → Prop)
    `{!∀ x, Decision (P x)} l :
  StronglySorted R l → StronglySorted R (filter P l).
Proof.
  induction 1 as [|x l Hsorted IH Hhd]; [constructor|].
  rewrite filter_cons. case_decide; [|done].
  constructor; [done|].
  apply Forall_forall. intros y Hy.
  apply list_elem_of_filter in Hy as [_ Hy].
  rewrite Forall_forall in Hhd. by apply Hhd.
Qed.

Lemma dense_sorted recorder :
  dense recorder → StronglySorted (λ a b, id a < id b) recorder.
Proof.
  intros Hdense. apply strongly_sorted_fmap_inv.
  rewrite Hdense. apply strongly_sorted_seqZ.
Qed.

(** What [select_notifications] returns from a store in ascending order of
    id: members of the store that are selected, in ascending order, at most
    [limit] of them, and a selected member is left out only when [limit]
    members with smaller ids were returned. *)
Lemma select_notifications_spec start limit stop topics recorder :
  StronglySorted (λ a b, id a < id b) recorder →
  let result := select_notifications start limit stop topics recorder in
  (∀ n, n ∈ result → n ∈ recorder ∧ selected start stop topics n)
  ∧ StronglySorted (λ a b, id a < id b) result
  ∧ (length result ≤ Z.to_nat limit)%nat
  ∧ (∀ n, n ∈ recorder → selected start stop topics n →
          n ∈ result
          ∨ (length result = Z.to_nat limit
             ∧ ∀ m, m ∈ result → id m < id n)).
Proof.
  intros Hsorted. unfold select_notifications. simpl.
  set (passing := filter (selected start stop topics) recorder).
  assert (StronglySorted (λ a b, id a < id b) passing) as Hpass
    by by apply strongly_sorted_filter.
  pose proof (take_drop (Z.to_nat limit) passing) as Hsplit.
  rewrite <- Hsplit in Hpass.
  split; [|split; [|split]].
  - intros n Hn.
    assert (n ∈ passing) as Hin
      by (rewrite <- Hsplit; apply elem_of_app; by left).
    apply list_elem_of_filter in Hin as [? ?]. done.
  - by apply StronglySorted_app_1_l in Hpass.
  - rewrite length_take. lia.
  - intros n Hn Hsel.
    assert (n ∈ passing) as Hin by by apply list_elem_of_filter.
    rewrite <- Hsplit in Hin. apply elem_of_app in Hin as [Hin|Hin];
      [by left|right].
    split.
    + rewrite length_take.
      destruct (decide (Z.to_nat limit ≤ length passing)%nat); [lia|].
      rewrite drop_ge in Hin by lia. by apply not_elem_of_nil in Hin.
    + intros m Hm. by eapply (StronglySorted_app_1_elem_of _ _ _ m n) in Hpass.
Qed.

End RecorderFacts.

(** The modelled recorder passes the assertions of [test_insert_select]. *)
Lemma test_insert_select_passes :
  let recorder0 : list Recorder.Notification := [] in
  Recorder.max_notification_id recorder0 = 0
  ∧ length (Recorder.select_notifications 1 3 None None recorder0) = 0%nat
  ∧ length (Recorder.select_notifications 1 3 None (Some {["topic1"]})
              recorder0) = 0%nat
  ∧ Recorder.insert_events [] recorder0 = (inr [], recorder0)
  ∧ (Recorder.insert_events
       [Recorder.stored_event1; Recorder.stored_event2] recorder0).1
    = inr [(Recorder.stored_event1, 1); (Recorder.stored_event2, 2)]
  ∧ (Recorder.insert_events [Recorder.stored_event3]
       (Recorder.insert_events
          [Recorder.stored_event1; Recorder.stored_event2] recorder0).2).1
    = inr [(Recorder.stored_event3, 3)]
  ∧ length (Recorder.select_events Recorder.originator_id1
              Recorder.test_recorder) = 2%nat
  ∧ length (Recorder.select_events Recorder.originator_id2
              Recorder.test_recorder) = 1%nat
  ∧ Recorder.select_notifications 1 3 None None Recorder.test_recorder
    = [ {| Recorder.id := 1; Recorder.stored := Recorder.stored_event1 |};
        {| Recorder.id := 2; Recorder.stored := Recorder.stored_event2 |};
        {| Recorder.id := 3; Recorder.stored := Recorder.stored_event3 |} ]
  ∧ Recorder.id <$> Recorder.select_notifications 1 3 None
                      (Some {["topic1"; "topic2"; "topic3"]})
                      Recorder.test_recorder = [1; 2; 3]
  ∧ Recorder.id <$> Recorder.select_notifications 1 3 None
                      (Some {["topic1"]}) Recorder.test_recorder = [1]
  ∧ Recorder.id <$> Recorder.select_notifications 1 3 None
                      (Some {["topic2"]}) Recorder.test_recorder = [2]
  ∧ Recorder.id <$> Recorder.select_notifications 1 3 None
                      (Some {["topic3"]}) Recorder.test_recorder = [3]
  ∧ Recorder.id <$> Recorder.select_notifications 1 3 None
                      (Some {["topic1"; "topic3"]})
                      Recorder.test_recorder = [1; 3]
  ∧ Recorder.max_notification_id Recorder.test_recorder = 3
  ∧ Recorder.id <$> Recorder.select_notifications 1 1 None None
                      Recorder.test_recorder = [1]
  ∧ Recorder.id <$> Recorder.select_notifications 2 1 None None
                      Recorder.test_recorder = [2]
  ∧ Recorder.id <$> Recorder.select_notifications 2 2 None None
                      Recorder.test_recorder = [2; 3]
  ∧ Recorder.id <$> Recorder.select_notifications 3 1 None None
                      Recorder.test_recorder = [3].
Proof. vm_compute. repeat split. Qed.

(** C4. On the empty recorder [max_notification_id] is 0 and
    [select_notifications] returns the empty list; after a run of inserts
    without conflict that total K events, [max_notification_id] is K,
    [select_notifications(1, K)] returns the K notifications of the store,
    their ids are 1, ..., K in this order and their events are the inserted
    events in order of insertion; and every insert call returned its batch in
    order with consecutive, strictly increasing ids. *)
Theorem C4_notification_ids_are_dense :
  Recorder.max_notification_id [] = 0
  ∧ (∀ start limit stop topics,
       Recorder.select_notifications start limit stop topics [] = [])
  ∧ (∀ batches returned recorder,
       Recorder.insert_all batches [] = Some (returned, recorder) →
       let K := Z.of_nat (length (concat batches)) in
       Recorder.max_notification_id recorder = K
       ∧ Recorder.select_notifications 1 K None None recorder = recorder
       ∧ length recorder = length (concat batches)
       ∧ Recorder.id <$> recorder = seqZ 1 K
       ∧ Recorder.stored <$> recorder = concat batches
       ∧ Forall2 (λ batch returning,
                    returning.*1 = batch
                    ∧ StronglySorted Z.lt returning.*2
                    ∧ ∃ first,
                        returning.*2 = seqZ first (Z.of_nat (length batch)))
           batches returned).
Proof.
  split; [done|]. split.
  { intros. unfold Recorder.select_notifications.
    by rewrite filter_nil, take_nil. }
  intros batches returned recorder Hall K.
  apply insert_all_spec in Hall as (Hdense & Hstored & Hrets); [|done].
  simpl in Hstored.
  assert (length recorder = length (concat batches)) as Hlen
    by by rewrite <- Hstored, length_fmap.
  unfold K. rewrite <- Hlen.
  split; [by apply max_notification_id_dense|].
  split; [by apply select_notifications_all|].
  split; [done|]. split; [exact Hdense|]. by split.
Qed.

Lemma C4_witness :
  Recorder.max_notification_id Recorder.test_recorder = 3
  ∧ Recorder.id <$> Recorder.test_recorder = [1; 2; 3].
Proof.
  destruct C4_notification_ids_are_dense as (_ & _ & Hrun).
  edestruct (Hrun [[]; [Recorder.stored_event1; Recorder.stored_event2];
                   [Recorder.stored_event3]])
    as (Hmax & _ & _ & Hids & _).
  - vm_compute. reflexivity.
  - split; [exact Hmax | exact Hids].
Defined.

(** C5. With a set of topics, [select_notifications] returns notifications of
    the store as they are (their ids are the ids assigned at commit), each
    with a topic in the set and an id in the range, in strictly ascending
    order of id and at most [limit] of them, and it leaves out a notification
    that qualifies only when [limit] qualifying notifications with smaller
    ids were returned; after inserting events with topics topic1 and topic2
    and then one with topic3, the call with start 1, limit 3 and topics
    topic1 and topic3 returns the notifications with ids 1 and 3, in this
    order. *)
Theorem C5_topic_filter_keeps_ids_and_order :
  (∀ recorder start limit stop topics,
     Recorder.reachable recorder →
     let result :=
       Recorder.select_notifications start limit stop (Some topics) recorder in
     (∀ n, n ∈ result →
           n ∈ recorder
           ∧ Recorder.topic (Recorder.stored n) ∈ topics
           ∧ start ≤ Recorder.id n
           ∧ match stop with Some s => Recorder.id n ≤ s | None => True end)
     ∧ StronglySorted (λ a b, Recorder.id a < Recorder.id b) result
     ∧ (length result ≤ Z.to_nat limit)%nat
     ∧ (∀ n, n ∈ recorder →
             Recorder.topic (Recorder.stored n) ∈ topics →
             start ≤ Recorder.id n →
             match stop with Some s => Recorder.id n ≤ s | None => True end →
             n ∈ result
             ∨ (length result = Z.to_nat limit
                ∧ ∀ m, m ∈ result → Recorder.id m < Recorder.id n)))
  ∧ (∀ e1 e2 e3 returning1 recorder1 returning2 recorder2,
       Recorder.topic e1 = "topic1" →
       Recorder.topic e2 = "topic2" →
       Recorder.topic e3 = "topic3" →
       Recorder.insert_events [e1; e2] [] = (inr returning1, recorder1) →
       Recorder.insert_events [e3] recorder1 = (inr returning2, recorder2) →
       Recorder.max_notification_id recorder2 = 3
       ∧ Recorder.select_notifications 1 3 None
           (Some {["topic1"; "topic3"]}) recorder2
         = [ {| Recorder.id := 1; Recorder.stored := e1 |};
             {| Recorder.id := 3; Recorder.stored := e3 |} ]).
Proof.
  split.
  - intros recorder start limit stop topics Hreach result.
    destruct (select_notifications_spec start limit stop (Some topics) recorder)
      as (Hmem & Hsorted & Hlen & Hall).
    { by apply dense_sorted, reachable_dense. }
    fold result in Hmem, Hsorted, Hlen, Hall.
    split; [|split; [done|split; [done|]]].
    + intros n Hn. destruct (Hmem n Hn) as (? & ? & ? & ?). done.
    + intros n Hn Htopic Hstart Hstop. apply Hall; [done|].
      by repeat split.
  - intros e1 e2 e3 returning1 recorder1 returning2 recorder2 H1 H2 H3 Hins1 Hins2.
    unfold Recorder.insert_events in Hins1.
    destruct (Recorder.conflict_free _ _); [|discriminate].
    injection Hins1 as _ <-. simpl in Hins2.
    unfold Recorder.insert_events in Hins2.
    destruct (Recorder.conflict_free _ _); [|discriminate].
    injection Hins2 as _ <-.
    set (n1 := {| Recorder.id := 1; Recorder.stored := e1 |}).
    set (n2 := {| Recorder.id := 2; Recorder.stored := e2 |}).
    set (n3 := {| Recorder.id := 3; Recorder.stored := e3 |}).
    change (Recorder.max_notification_id [n1; n2; n3] = 3
            ∧ Recorder.select_notifications 1 3 None
                (Some {["topic1"; "topic3"]}) [n1; n2; n3] = [n1; n3]).
    split; [done|].
    unfold Recorder.select_notifications.
    rewrite filter_cons, decide_True.
    2:{ repeat split; [simpl; lia|]. simpl. rewrite H1.
        apply elem_of_union; left. by apply elem_of_singleton. }
    rewrite filter_cons, decide_False.
    2:{ intros (_ & _ & Hin). simpl in Hin. rewrite H2 in Hin.
        apply elem_of_union in Hin as [Hin|Hin];
          apply elem_of_singleton in Hin; discriminate. }
    rewrite filter_cons, decide_True.
    2:{ repeat split; [simpl; lia|]. simpl. rewrite H3.
        apply elem_of_union; right. by apply elem_of_singleton. }
    by rewrite filter_nil.
Qed.

Lemma C5_witness :
  ∃ recorder,
    Recorder.reachable recorder
    ∧ Recorder.max_notification_id recorder = 3
    ∧ Recorder.id <$> Recorder.select_notifications 1 3 None
                        (Some {["topic1"; "topic3"]}) recorder = [1; 3].
Proof.
  destruct C5_topic_filter_keeps_ids_and_order as [_ Hexample].
  edestruct (Hexample Recorder.topic_event1 Recorder.topic_event2
               Recorder.topic_event3) as [Hmax Hsel];
    [reflexivity | reflexivity | reflexivity
    | vm_compute; reflexivity | vm_compute; reflexivity |].
  exists (Recorder.insert_events [Recorder.topic_event3]
            (Recorder.insert_events
               [Recorder.topic_event1; Recorder.topic_event2] []).2).2.
  split; [|split; [exact Hmax | exact (f_equal (fmap Recorder.id) Hsel)]].
  do 2 apply Recorder.reachable_insert. apply Recorder.reachable_empty.
Defined.

(** C6 as stated does not hold: the first insert of the recorder test commits
    versions 0 and 1 for one originator, so the versions of an originator
    need not start at 1. *)
Lemma C6_counterexample :
  ¬ ∀ recorder,
      Recorder.reachable recorder →
      Recorder.starting_at_one (Recorder.stored <$> recorder).
Proof.
  intros Hclaim.
  specialize (Hclaim _ (Recorder.reachable_insert
                          [Recorder.stored_event1; Recorder.stored_event2] []
                          Recorder.reachable_empty)
                Recorder.originator_id1).
  vm_compute in Hclaim. discriminate.
Qed.

(** C6, amended. In every store that inserts can build, the versions recorded
    for one originator are consecutive and ascending from the version of its
    first event, without gap or duplicate; [insert_events] commits a batch
    exactly when the batch keeps them so, and otherwise raises the conflict
    error and leaves the store as it was: so does a batch holding an event
    whose originator id and version are in the store, and a batch whose first
    event is not at the latest version of its originator plus one. *)
Theorem C6_versions_are_consecutive (recorder : list Recorder.Notification) :
  Recorder.reachable recorder →
  let history := Recorder.stored <$> recorder in
  Recorder.contiguous history
  ∧ (∀ oid, NoDup (Recorder.versions_of oid history))
  ∧ (∀ batch,
       Recorder.contiguous (history ++ batch) →
       ∃ returning recorder',
         Recorder.insert_events batch recorder = (inr returning, recorder')
         ∧ Recorder.stored <$> recorder' = history ++ batch)
  ∧ (∀ batch,
       ¬ Recorder.contiguous (history ++ batch) →
       Recorder.insert_events batch recorder
       = (inl Recorder.ConflictError, recorder))
  ∧ (∀ batch e e',
       e ∈ batch → e' ∈ history →
       Recorder.originator_id e' = Recorder.originator_id e →
       Recorder.originator_version e' = Recorder.originator_version e →
       Recorder.insert_events batch recorder
       = (inl Recorder.ConflictError, recorder))
  ∧ (∀ e batch latest,
       last (Recorder.versions_of (Recorder.originator_id e) history)
       = Some latest →
       Recorder.originator_version e ≠ latest + 1 →
       Recorder.insert_events (e :: batch) recorder
       = (inl Recorder.ConflictError, recorder)).
Proof.
  intros Hreach history.
  pose proof (reachable_contiguous recorder Hreach) as Hc. fold history in Hc.
  assert (Hreject : ∀ batch,
            ¬ Recorder.contiguous (history ++ batch) →
            Recorder.insert_events batch recorder
            = (inl Recorder.ConflictError, recorder)).
  { intros batch Hnot. unfold Recorder.insert_events. fold history.
    destruct (Recorder.conflict_free history batch) eqn:Hfree; [|done].
    by apply conflict_free_spec in Hfree. }
  split; [done|]. split; [|split; [|split; [done|split]]].
  - intros oid. destruct (Hc oid) as [first ->]. apply NoDup_seqZ.
  - intros batch Hc'.
    destruct (Recorder.insert_events batch recorder)
      as [[e|returning] recorder'] eqn:Hins.
    + unfold Recorder.insert_events in Hins. fold history in Hins.
      apply conflict_free_spec in Hc'; [|done].
      rewrite Hc' in Hins. discriminate.
    + apply insert_events_inr in Hins as (_ & _ & _ & ?). by eexists _, _.
  - intros batch e e' He He' Hoid Hver. apply Hreject. intros Hc'.
    destruct (Hc' (Recorder.originator_id e)) as [first Hfirst].
    pose proof (NoDup_seqZ first
      (Z.of_nat (length (Recorder.versions_of (Recorder.originator_id e)
                           (history ++ batch))))) as Hnodup.
    rewrite <- Hfirst, versions_of_app in Hnodup.
    apply NoDup_app in Hnodup as (_ & Hdisjoint & _).
    apply (Hdisjoint (Recorder.originator_version e)).
    + apply elem_of_versions_of. by exists e'.
    + apply elem_of_versions_of. by exists e.
  - intros e batch latest Hlast Hgap.
    unfold Recorder.insert_events. fold history. simpl.
    unfold Recorder.leaves_gap. rewrite Hlast.
    rewrite bool_decide_eq_true_2 by done.
    by rewrite andb_false_r.
Qed.

Lemma C6_witness :
  Recorder.contiguous (Recorder.stored <$> Recorder.test_recorder)
  ∧ Recorder.insert_events [Recorder.stored_event2] Recorder.test_recorder
    = (inl Recorder.ConflictError, Recorder.test_recorder).
Proof.
  destruct (C6_versions_are_consecutive Recorder.test_recorder)
    as (Hc & _ & _ & _ & Hdup & _).
  - unfold Recorder.test_recorder.
    do 3 apply Recorder.reachable_insert. apply Recorder.reachable_empty.
  - split; [exact Hc|].
    apply (Hdup _ Recorder.stored_event2 Recorder.stored_event2).
    + by left.
    + vm_compute. right. left.
    + reflexivity.
    + reflexivity.
Defined.

(** * Further properties of domain.py *)

(** ** _coerce_args_to_kwargs *)

Lemma bind_positional_inr names : ∀ args kwargs copy_kwargs bound,
  bind_positional names args kwargs copy_kwargs = inr bound →
  (∀ k, k ∈ take (length args) names → kwargs !! k = None)
  ∧ (∀ k, k ∉ take (length args) names → bound !! k = copy_kwargs !! k)
  ∧ (∀ k, k ∈ take (length args) names → is_Some (bound !! k))
  ∧ (NoDup names →
     ∀ i arg name,
       args !! i = Some arg → names !! i = Some name →
       bound !! name = Some arg).
Proof.
  induction names as [|name names IH]; intros args kwargs ck bound Hbind.
  - destruct args; simpl in Hbind; inversion Hbind; subst.
    all: rewrite take_nil; repeat split; try done.
    all: by intros k Hk; apply not_elem_of_nil in Hk.
  - destruct args as [|arg args]; simpl in Hbind.
    { inversion Hbind; subst. simpl. repeat split; try done.
      all: by intros k Hk; apply not_elem_of_nil in Hk. }
    destruct (kwargs !! name) eqn:Hname; [discriminate|].
    apply IH in Hbind as (Hfree & Hother & Hbound & Hindex).
    simpl. repeat split.
    + intros k Hk. apply elem_of_cons in Hk as [->|Hk]; [done|by apply Hfree].
    + intros k Hk. apply not_elem_of_cons in Hk as [Hne Hk].
      rewrite Hother by done. by rewrite lookup_insert_ne.
    + intros k Hk. apply elem_of_cons in Hk as [->|Hk]; [|by apply Hbound].
      destruct (decide (name ∈ take (length args) names)) as [Hin|Hnotin];
        [by apply Hbound|].
      rewrite Hother by done. rewrite lookup_insert_eq. by eexists.
    + intros Hnodup i a n Hi Hn. apply NoDup_cons in Hnodup as [Hfresh Hnodup].
      destruct i as [|i]; simpl in Hi, Hn.
      * inversion Hi; inversion Hn; subst.
        rewrite Hother; [by rewrite lookup_insert_eq|].
        intros Hin. apply Hfresh. by eapply subseteq_take.
      * by eapply Hindex.
Qed.

(** What a successful [_coerce_args_to_kwargs] went through. *)
Lemma coerce_inr parameters args kwargs expects_id result :
  _coerce_args_to_kwargs parameters args kwargs expects_id = inr result →
  map_Forall (λ name _,
      name ∈ required_keyword_only parameters
      ∨ name ∈ positional_names expects_id parameters) kwargs
  ∧ (length args ≤ length (positional_names expects_id parameters))%nat
  ∧ (length (filter (λ n, kwargs !! n = None)
               (required_positional expects_id parameters))
     ≤ length args)%nat
  ∧ (∀ n, n ∈ required_keyword_only parameters → is_Some (kwargs !! n))
  ∧ ∃ bound,
      bind_positional (positional_names expects_id parameters) args kwargs kwargs
      = inr bound
      ∧ result = bound ∪ keyword_defaults parameters.
Proof.
  unfold _coerce_args_to_kwargs. intros H.
  destruct (bool_decide (map_Forall _ kwargs)) eqn:Hkeys; [|discriminate].
  apply bool_decide_eq_true_1 in Hkeys. simpl in H.
  destruct (bool_decide (_ < _)%nat) eqn:Hlen; [discriminate|].
  apply bool_decide_eq_false_1 in Hlen.
  destruct (bool_decide (_ > 0)) eqn:Hmissing; [discriminate|].
  apply bool_decide_eq_false_1 in Hmissing.
  destruct (bind_positional _ _ _ _) as [e|bound] eqn:Hbind; [discriminate|].
  destruct (filter _ (required_keyword_only parameters)) as [|n l] eqn:Hkwo;
    [|discriminate].
  inversion H; subst; clear H.
  split; [done|]. split; [lia|]. split; [lia|]. split; [|by eexists].
  intros n Hn. destruct (kwargs !! n) eqn:Hlook; [by eexists|].
  assert (n ∈ filter (λ n, kwargs !! n = None) (required_keyword_only parameters))
    as Hin by by apply list_elem_of_filter.
  rewrite Hkwo in Hin. by apply not_elem_of_nil in Hin.
Qed.

Lemma coerce_subseteq parameters args kwargs expects_id result :
  _coerce_args_to_kwargs parameters args kwargs expects_id = inr result →
  kwargs ⊆ result.
Proof.
  intros H. apply coerce_inr in H as (_ & _ & _ & _ & bound & Hbind & ->).
  apply bind_positional_inr in Hbind as (Hfree & Hother & _).
  apply map_subseteq_spec. intros k v Hk.
  apply lookup_union_Some_l. rewrite Hother; [done|].
  intros Hin. apply Hfree in Hin. congruence.
Qed.

(** X1. The keyword arguments of the call are all in the result of
    [_coerce_args_to_kwargs], with their values: neither a positional
    argument nor a default replaces a keyword that was given. *)
Theorem coerce_keeps_keywords parameters args kwargs expects_id result k v :
  _coerce_args_to_kwargs parameters args kwargs expects_id = inr result →
  kwargs !! k = Some v →
  result !! k = Some v.
Proof.
  intros H Hk. eapply lookup_weaken; [exact Hk|]. by eapply coerce_subseteq.
Qed.

Lemma coerce_keeps_keywords_witness :
  ∃ result,
    _coerce_args_to_kwargs set_name_parameters [VStr "Rex"]
      {["loud" := VInt 1]} false = inr result
    ∧ result !! "loud" = Some (VInt 1).
Proof.
  destruct (_coerce_args_to_kwargs set_name_parameters [VStr "Rex"]
              {["loud" := VInt 1]} false) as [e|result] eqn:Hok;
    [vm_compute in Hok; discriminate|].
  exists result. split; [reflexivity|].
  apply (coerce_keeps_keywords set_name_parameters [VStr "Rex"]
           {["loud" := VInt 1]} false result "loud" (VInt 1) Hok).
  reflexivity.
Defined.

Lemma bind_positional_inl names : ∀ args kwargs copy_kwargs e,
  bind_positional names args kwargs copy_kwargs = inl e → e = TypeError.
Proof.
  induction names as [|name names IH]; intros args kwargs ck e Hbind.
  - by destruct args.
  - destruct args as [|arg args]; [done|]. simpl in Hbind.
    destruct (kwargs !! name); [congruence|]. by eapply IH.
Qed.

Lemma coerce_inl parameters args kwargs expects_id e :
  _coerce_args_to_kwargs parameters args kwargs expects_id = inl e →
  e = TypeError.
Proof.
  unfold _coerce_args_to_kwargs. intros H.
  repeat (case_match; [by inversion H|]).
  destruct (bind_positional _ _ _ _) as [e'|bound] eqn:Hbind.
  - apply bind_positional_inl in Hbind. congruence.
  - by case_match; inversion H.
Qed.

Lemma coerce_fails parameters args kwargs expects_id :
  (∀ result,
     _coerce_args_to_kwargs parameters args kwargs expects_id ≠ inr result) →
  _coerce_args_to_kwargs parameters args kwargs expects_id = inl TypeError.
Proof.
  intros Hfail.
  destruct (_coerce_args_to_kwargs _ _ _ _) as [e|result] eqn:H.
  - by apply coerce_inl in H as ->.
  - by destruct (Hfail result).
Qed.

(** The defaults that the first loop collected. *)
Lemma keyword_defaults_is_Some parameters k :
  is_Some (keyword_defaults parameters !! k)
  ↔ ∃ p, p ∈ not_self parameters
         ∧ param_name p = k ∧ is_Some (param_default p).
Proof.
  unfold keyword_defaults.
  assert (∀ l (acc : Dict),
    is_Some (foldl (λ defaults p,
                      match param_default p with
                      | Some value => <[param_name p := value]> defaults
                      | None => defaults
                      end) acc l !! k)
    ↔ is_Some (acc !! k)
      ∨ ∃ p, p ∈ l ∧ param_name p = k ∧ is_Some (param_default p)) as Hfold.
  { induction l as [|p l IH]; intros acc; simpl.
    - split; [by left|]. intros [?|(? & Hin & _)]; [done|].
      by apply not_elem_of_nil in Hin.
    - rewrite IH. split.
      + intros [Hacc|(q & Hq & ? & ?)].
        * destruct (param_default p) as [v|] eqn:Hdef; [|by left].
          rewrite lookup_insert in Hacc. case_decide; [|by left].
          right. exists p. rewrite Hdef. repeat split; [by left|done|by eexists].
        * right. exists q. repeat split; [by right|done|done].
      + intros [Hacc|(q & Hq & Hname & Hdef)].
        * left. destruct (param_default p); [|done].
          rewrite lookup_insert. by case_decide.
        * apply elem_of_cons in Hq as [->|Hq].
          -- left. destruct Hdef as [v ->]. rewrite Hname.
             by rewrite lookup_insert_eq.
          -- right. by exists q. }
  rewrite Hfold, lookup_empty. split; [|by right].
  by intros [[? ?]|?].
Qed.

(** With defaults last, the parameters without default are a prefix. *)
Lemma defaults_last_prefix (l : list MethodParameter) :
  defaults_last l = true →
  filter (λ p, param_default p = None) l
  = take (length (filter (λ p, param_default p = None) l)) l.
Proof.
  induction l as [|p l IH]; [done|]. simpl. intros Hlast.
  rewrite filter_cons. destruct (param_default p) eqn:Hdef.
  - rewrite decide_False by done.
    assert (filter (λ p, param_default p = None) l = []) as ->; [|done].
    rewrite List.forallb_forall in Hlast. clear IH.
    induction l as [|q l IHl]; [done|].
    rewrite filter_cons, decide_False, IHl; [done| |].
    + intros x Hx. apply Hlast. by right.
    + specialize (Hlast q ltac:(by left)).
      apply bool_decide_eq_true_1 in Hlast as [? Hq]. by rewrite Hq.
  - rewrite decide_True by done. simpl. f_equal. by apply IH.
Qed.

Lemma required_positional_prefix expects_id parameters :
  defaults_last (positional_or_keyword parameters) = true →
  required_positional expects_id parameters
  = take (length (required_positional expects_id parameters))
      (positional_names expects_id parameters).
Proof.
  intros Hlast. unfold required_positional, positional_names.
  rewrite length_app, take_app_add, length_fmap.
  f_equal. rewrite <- fmap_take. f_equal. by apply defaults_last_prefix.
Qed.

(** If the first [n] elements of [l] satisfy [P] and at most [n] of the first
    [r] do, then none between [n] and [r] does. *)
Lemma none_beyond_the_first {A} (P : A → Prop) `{!∀ x, Decision (P x)}
    (l : list A) (n r : nat) :
  (n ≤ length l)%nat →
  (∀ x, x ∈ take n l → P x) →
  (length (filter P (take r l)) ≤ n)%nat →
  ∀ i x, l !! i = Some x → (n ≤ i < r)%nat → ¬ P x.
Proof.
  intros Hn Hfirst Hcount i x Hi Hrange HP.
  assert (take r l = take n l ++ drop n (take r l)) as Hsplit.
  { rewrite <- (take_drop n (take r l)) at 1.
    rewrite take_take. f_equal. f_equal. lia. }
  rewrite Hsplit, filter_app, length_app in Hcount.
  rewrite (filter_all P (take n l)) in Hcount by done.
  rewrite length_take_le in Hcount by done.
  assert (x ∈ filter P (drop n (take r l))) as Hin.
  { apply list_elem_of_filter. split; [done|].
    apply (list_elem_of_lookup_2 _ (i - n)).
    rewrite lookup_drop, lookup_take_lt by lia.
    by replace (n + (i - n))%nat with i by lia. }
  destruct (filter P (drop n (take r l))); [by apply not_elem_of_nil in Hin|].
  simpl in Hcount. lia.
Qed.

(** A required positional parameter of a successful call was bound to an
    argument or given as a keyword. *)
Lemma required_positional_given parameters args kwargs expects_id result name :
  _coerce_args_to_kwargs parameters args kwargs expects_id = inr result →
  defaults_last (positional_or_keyword parameters) = true →
  name ∈ required_positional expects_id parameters →
  name ∈ take (length args) (positional_names expects_id parameters)
  ∨ is_Some (kwargs !! name).
Proof.
  intros Hok Hlast Hname.
  apply coerce_inr in Hok as (_ & Hlen & Hcount & _ & bound & Hbind & _).
  apply bind_positional_inr in Hbind as (Hfree & _).
  rewrite required_positional_prefix in Hname, Hcount by done.
  set (r := length (required_positional expects_id parameters)) in *.
  set (names := positional_names expects_id parameters) in *.
  apply elem_of_take in Hname as (i & Hi & Hir).
  destruct (decide (i < length args)%nat) as [Hlt|Hge].
  { left. apply elem_of_take. by exists i. }
  right. destruct (kwargs !! name) eqn:Hlook; [by eexists|]. exfalso.
  by apply (none_beyond_the_first (λ n, kwargs !! n = None) names
              (length args) r Hlen Hfree Hcount i name Hi ltac:(lia)).
Qed.

Lemma filter_none {A} (P : A → Prop) `{!∀ x, Decision (P x)} (l : list A) :
  (∀ x, x ∈ l → ¬ P x) → filter P l = [].
Proof.
  induction l as [|x l IH]; intros Hnone; [done|].
  rewrite filter_cons, decide_False by (apply Hnone; left).
  apply IH. intros y Hy. apply Hnone. by right.
Qed.

(** The conditions under which [_coerce_args_to_kwargs] returns. *)
Lemma coerce_intro parameters args kwargs expects_id bound :
  map_Forall (λ name _,
      name ∈ required_keyword_only parameters
      ∨ name ∈ positional_names expects_id parameters) kwargs →
  (length args ≤ length (positional_names expects_id parameters))%nat →
  (length (filter (λ n, kwargs !! n = None)
             (required_positional expects_id parameters))
   ≤ length args)%nat →
  (∀ n, n ∈ required_keyword_only parameters → is_Some (kwargs !! n)) →
  bind_positional (positional_names expects_id parameters) args kwargs kwargs
  = inr bound →
  _coerce_args_to_kwargs parameters args kwargs expects_id
  = inr (bound ∪ keyword_defaults parameters).
Proof.
  intros Hkeys Hlen Hcount Hkwo Hbind. unfold _coerce_args_to_kwargs.
  rewrite bool_decide_eq_true_2 by done. simpl.
  rewrite bool_decide_eq_false_2 by lia.
  rewrite bool_decide_eq_false_2 by lia.
  rewrite Hbind.
  rewrite (filter_none _ (required_keyword_only parameters)); [done|].
  intros n Hn Hnone. apply Hkwo in Hn as [? ?]. congruence.
Qed.

(** X2. The positional arguments are bound, in order, to the leading names of
    the positional-or-keyword parameters (after [id] when the class expects
    an id), none of which was given as a keyword. *)
Theorem coerce_binds_positional_arguments
    parameters args kwargs expects_id result :
  _coerce_args_to_kwargs parameters args kwargs expects_id = inr result →
  NoDup (positional_names expects_id parameters) →
  ∀ i arg,
    args !! i = Some arg →
    ∃ name,
      positional_names expects_id parameters !! i = Some name
      ∧ result !! name = Some arg
      ∧ kwargs !! name = None.
Proof.
  intros Hok Hnodup i arg Hi.
  apply coerce_inr in Hok as (_ & Hlen & _ & _ & bound & Hbind & ->).
  apply bind_positional_inr in Hbind as (Hfree & _ & _ & Hindex).
  destruct (lookup_lt_is_Some_2 (positional_names expects_id parameters) i)
    as [name Hname].
  { apply lookup_lt_Some in Hi. lia. }
  exists name. split; [done|]. split.
  - apply lookup_union_Some_l. by eapply Hindex.
  - apply Hfree. apply elem_of_take. exists i. split; [done|].
    by apply lookup_lt_Some in Hi.
Qed.

Lemma coerce_binds_positional_arguments_witness :
  ∃ result name,
    _coerce_args_to_kwargs set_name_parameters [VStr "Rex"]
      {["loud" := VInt 1]} false = inr result
    ∧ positional_names false set_name_parameters !! 0%nat = Some name
    ∧ result !! name = Some (VStr "Rex").
Proof.
  destruct (_coerce_args_to_kwargs set_name_parameters [VStr "Rex"]
              {["loud" := VInt 1]} false) as [e|result] eqn:Hok;
    [vm_compute in Hok; discriminate|].
  destruct (coerce_binds_positional_arguments set_name_parameters
              [VStr "Rex"] {["loud" := VInt 1]} false result Hok)
    with (i := 0%nat) (arg := VStr "Rex") as (name & Hname & Hres & _).
  - by_compute.
  - reflexivity.
  - exists result, name. split; [reflexivity|]. split; assumption.
Defined.

(** X3. [_coerce_args_to_kwargs] raises [TypeError] when there are more
    positional arguments than positional names, when a keyword names neither
    a keyword-only nor a positional-or-keyword parameter, when a positional
    argument falls on a name that is also given as a keyword, and, for a
    signature with its defaults last, when a positional-or-keyword parameter
    without default is neither reached by the positional arguments nor given
    as a keyword. *)
Theorem coerce_rejects_bad_calls parameters args kwargs expects_id :
  ((length (positional_names expects_id parameters) < length args)%nat →
   _coerce_args_to_kwargs parameters args kwargs expects_id = inl TypeError)
  ∧ (∀ k,
       is_Some (kwargs !! k) →
       k ∉ required_keyword_only parameters →
       k ∉ positional_names expects_id parameters →
       _coerce_args_to_kwargs parameters args kwargs expects_id = inl TypeError)
  ∧ (∀ i name,
       (i < length args)%nat →
       positional_names expects_id parameters !! i = Some name →
       is_Some (kwargs !! name) →
       _coerce_args_to_kwargs parameters args kwargs expects_id = inl TypeError)
  ∧ (∀ name,
       defaults_last (positional_or_keyword parameters) = true →
       name ∈ required_positional expects_id parameters →
       name ∉ take (length args) (positional_names expects_id parameters) →
       kwargs !! name = None →
       _coerce_args_to_kwargs parameters args kwargs expects_id = inl TypeError).
Proof.
  repeat split.
  - intros Hmany. apply coerce_fails. intros result Hok.
    apply coerce_inr in Hok as (_ & ? & _). lia.
  - intros k [v Hk] Hkwo Hpos. apply coerce_fails. intros result Hok.
    apply coerce_inr in Hok as (Hkeys & _).
    destruct (Hkeys k v Hk); done.
  - intros i name Hi Hname [v Hk]. apply coerce_fails. intros result Hok.
    apply coerce_inr in Hok as (_ & _ & _ & _ & bound & Hbind & _).
    apply bind_positional_inr in Hbind as (Hfree & _).
    rewrite Hfree in Hk; [done|]. apply elem_of_take. by exists i.
  - intros name Hlast Hreq Hunbound Hnone. apply coerce_fails.
    intros result Hok.
    destruct (required_positional_given _ _ _ _ _ name Hok Hlast Hreq)
      as [?|[? ?]]; [done|congruence].
Qed.

Lemma coerce_rejects_bad_calls_witness :
  _coerce_args_to_kwargs set_name_parameters
    [VStr "Rex"; VNone; VInt 1] ∅ false = inl TypeError
  ∧ _coerce_args_to_kwargs set_name_parameters [VStr "Rex"]
      (<["colour" := VStr "red"]> {["loud" := VInt 1]}) false = inl TypeError
  ∧ _coerce_args_to_kwargs set_name_parameters [VStr "Rex"]
      (<["name" := VStr "Max"]> {["loud" := VInt 1]}) false = inl TypeError
  ∧ _coerce_args_to_kwargs set_name_parameters [] {["loud" := VInt 1]} false
    = inl TypeError.
Proof.
  split; [|split; [|split]].
  - apply (proj1 (coerce_rejects_bad_calls set_name_parameters
                    [VStr "Rex"; VNone; VInt 1] ∅ false)).
    vm_compute. lia.
  - apply (proj1 (proj2 (coerce_rejects_bad_calls set_name_parameters
                           [VStr "Rex"]
                           (<["colour" := VStr "red"]> {["loud" := VInt 1]})
                           false)) "colour").
    + vm_compute. by eexists.
    + by_compute.
    + by_compute.
  - apply (proj1 (proj2 (proj2 (coerce_rejects_bad_calls set_name_parameters
                                  [VStr "Rex"]
                                  (<["name" := VStr "Max"]> {["loud" := VInt 1]})
                                  false))) 0%nat "name").
    + simpl. lia.
    + reflexivity.
    + vm_compute. by eexists.
  - apply (proj2 (proj2 (proj2 (coerce_rejects_bad_calls set_name_parameters
                                  [] {["loud" := VInt 1]} false))) "name").
    + reflexivity.
    + by_compute.
    + by_compute.
    + reflexivity.
Defined.

(** X4. A keyword-only parameter has to be given in every call: when its name
    is not among the keywords, [_coerce_args_to_kwargs] raises [TypeError],
    also when the parameter has a default. *)
Theorem coerce_requires_every_keyword_only_parameter
    parameters args kwargs expects_id p :
  p ∈ parameters →
  param_name p ≠ "self" →
  param_kind p = KEYWORD_ONLY →
  kwargs !! param_name p = None →
  _coerce_args_to_kwargs parameters args kwargs expects_id = inl TypeError.
Proof.
  intros Hp Hself Hkind Hnone. apply coerce_fails. intros result Hok.
  apply coerce_inr in Hok as (_ & _ & _ & Hkwo & _).
  destruct (Hkwo (param_name p)) as [v Hv]; [|congruence].
  unfold required_keyword_only, not_self.
  apply list_elem_of_fmap_2, list_elem_of_filter. split.
  - unfold is_keyword_only. by rewrite Hkind.
  - by apply list_elem_of_filter.
Qed.

Lemma coerce_requires_every_keyword_only_parameter_witness :
  _coerce_args_to_kwargs
    [ {| param_name := "self"; param_kind := POSITIONAL_OR_KEYWORD;
         param_default := None |};
      {| param_name := "loud"; param_kind := KEYWORD_ONLY;
         param_default := Some (VInt 0) |} ] [] ∅ false
  = inl TypeError.
Proof.
  apply (coerce_requires_every_keyword_only_parameter _ _ _ _
           {| param_name := "loud"; param_kind := KEYWORD_ONLY;
              param_default := Some (VInt 0) |}).
  - right. left.
  - discriminate.
  - reflexivity.
  - reflexivity.
Defined.

Lemma positional_or_keyword_name parameters expects_id p :
  p ∈ parameters → param_name p ≠ "self" →
  param_kind p = POSITIONAL_OR_KEYWORD →
  param_name p ∈ positional_names expects_id parameters
  ∧ (param_default p = None →
     param_name p ∈ required_positional expects_id parameters).
Proof.
  intros Hp Hself Hkind.
  assert (p ∈ positional_or_keyword parameters) as Hpok.
  { apply list_elem_of_filter. split.
    - unfold is_positional_or_keyword. by rewrite Hkind.
    - by apply list_elem_of_filter. }
  unfold positional_names, required_positional. split.
  - apply elem_of_app. right. by apply list_elem_of_fmap_2.
  - intros Hdef. apply elem_of_app. right.
    apply list_elem_of_fmap_2. by apply list_elem_of_filter.
Qed.

(** For a signature with its defaults last, the result has a value for
    every positional-or-keyword and every keyword-only parameter other than
    [self]. *)
Lemma coerce_complete parameters args kwargs expects_id result :
  _coerce_args_to_kwargs parameters args kwargs expects_id = inr result →
  defaults_last (positional_or_keyword parameters) = true →
  ∀ p,
    p ∈ parameters → param_name p ≠ "self" → accepts_keyword p = true →
    is_Some (result !! param_name p).
Proof.
  intros Hok Hlast p Hp Hself Hkind.
  pose proof (coerce_subseteq _ _ _ _ _ Hok) as Hsub.
  pose proof Hok as Hparts.
  apply coerce_inr in Hparts as (_ & _ & _ & Hkwo & bound & Hbind & Hres).
  apply bind_positional_inr in Hbind as (_ & _ & Hbound & _).
  assert (∀ k, is_Some (kwargs !! k) → is_Some (result !! k)) as Hkw.
  { intros k [v Hk]. exists v. by eapply lookup_weaken. }
  unfold accepts_keyword in Hkind.
  destruct (param_kind p) eqn:Hk; try discriminate.
  - destruct (positional_or_keyword_name parameters expects_id p)
      as [Hname Hreq]; [done..|].
    destruct (param_default p) as [v|] eqn:Hdef.
    + rewrite Hres. apply lookup_union_is_Some. right.
      apply keyword_defaults_is_Some. exists p.
      split; [by apply list_elem_of_filter|]. split; [done|].
      rewrite Hdef. by eexists.
    + destruct (required_positional_given _ _ _ _ _ (param_name p) Hok Hlast)
        as [Hin|Hin]; [by apply Hreq| |by apply Hkw].
      rewrite Hres. apply lookup_union_is_Some. left. by apply Hbound.
  - apply Hkw, Hkwo. unfold required_keyword_only.
    apply list_elem_of_fmap_2, list_elem_of_filter. split.
    + unfold is_keyword_only. by rewrite Hk.
    + by apply list_elem_of_filter.
Qed.

(** Every key of the result is the name of a positional-or-keyword
    parameter, of a keyword-only parameter or of a parameter with a default
    (or [id], when the class expects an id). *)
Lemma coerce_keys parameters args kwargs expects_id result :
  _coerce_args_to_kwargs parameters args kwargs expects_id = inr result →
  ∀ k,
    is_Some (result !! k) →
    k ∈ positional_names expects_id parameters
    ∨ k ∈ required_keyword_only parameters
    ∨ ∃ p, p ∈ parameters ∧ param_name p ≠ "self"
           ∧ param_name p = k ∧ is_Some (param_default p).
Proof.
  intros Hok k Hk.
  apply coerce_inr in Hok as (Hkeys & _ & _ & _ & bound & Hbind & ->).
  apply bind_positional_inr in Hbind as (_ & Hother & _).
  apply lookup_union_is_Some in Hk as [Hk|Hk].
  - destruct (decide (k ∈ take (length args)
                        (positional_names expects_id parameters)))
      as [Hin|Hnotin].
    + left. by eapply subseteq_take.
    + rewrite Hother in Hk by done. destruct Hk as [v Hk].
      destruct (Hkeys k v Hk); [by right; left|by left].
  - right. right. apply keyword_defaults_is_Some in Hk as (p & Hp & ? & ?).
    apply list_elem_of_filter in Hp as [? ?]. by exists p.
Qed.

Lemma not_self_names parameters expects_id k :
  k ∈ positional_names expects_id parameters
  ∨ k ∈ required_keyword_only parameters
  ∨ (∃ p, p ∈ parameters ∧ param_name p ≠ "self"
          ∧ param_name p = k ∧ is_Some (param_default p)) →
  k ∈ (if expects_id then ["id"] else [])
      ++ (param_name <$> not_self parameters).
Proof.
  unfold positional_names, required_keyword_only, positional_or_keyword.
  rewrite !elem_of_app, !list_elem_of_fmap.
  intros [[?|(p & -> & Hp)]|[(p & -> & Hp)|(p & Hp & ? & <- & _)]].
  - by left.
  - right. exists p. split; [done|].
    by apply list_elem_of_filter in Hp as [_ Hp].
  - right. exists p. split; [done|].
    by apply list_elem_of_filter in Hp as [_ Hp].
  - right. exists p. split; [done|]. by apply list_elem_of_filter.
Qed.

(** X5. For a signature with its defaults last whose parameters other than
    [self] all take keywords, the result of [_coerce_args_to_kwargs] has a
    value for every parameter other than [self], and every key of the result
    is the name of such a parameter (or [id], when the class expects an id):
    the function leaves no parameter out and adds no other key. *)
Theorem coerce_result_has_exactly_the_parameters
    parameters args kwargs expects_id result :
  _coerce_args_to_kwargs parameters args kwargs expects_id = inr result →
  defaults_last (positional_or_keyword parameters) = true →
  (∀ p, p ∈ parameters → param_name p ≠ "self" → accepts_keyword p = true) →
  (∀ p, p ∈ parameters → param_name p ≠ "self" →
        is_Some (result !! param_name p))
  ∧ (∀ k, is_Some (result !! k) →
          k ∈ (if expects_id then ["id"] else [])
              ++ (param_name <$> not_self parameters)).
Proof.
  intros Hok Hlast Hkinds. split.
  - intros p Hp Hself. eapply coerce_complete; eauto.
  - intros k Hk. apply not_self_names. by eapply coerce_keys.
Qed.

Lemma coerce_result_has_exactly_the_parameters_witness :
  ∃ result,
    _coerce_args_to_kwargs set_name_parameters [VStr "Rex"]
      {["loud" := VInt 1]} false = inr result
    ∧ is_Some (result !! "nickname")
    ∧ result !! "colour" = None.
Proof.
  destruct (_coerce_args_to_kwargs set_name_parameters [VStr "Rex"]
              {["loud" := VInt 1]} false) as [e|result] eqn:Hok;
    [vm_compute in Hok; discriminate|].
  exists result. split; [reflexivity|].
  destruct (coerce_result_has_exactly_the_parameters set_name_parameters
              [VStr "Rex"] {["loud" := VInt 1]} false result Hok eq_refl)
    as [Hcomplete Hkeys].
  - apply (Forall_forall
             (λ p, param_name p ≠ "self" → accepts_keyword p = true)).
    repeat constructor; reflexivity.
  - split.
    + apply (Hcomplete
               {| param_name := "nickname"; param_kind := POSITIONAL_OR_KEYWORD;
                  param_default := Some VNone |}).
      * right. right. left.
      * discriminate.
    + destruct (result !! "colour") as [v|] eqn:Hlook; [|reflexivity].
      exfalso. assert (is_Some (result !! "colour")) as Hsome
        by (rewrite Hlook; by eexists).
      apply Hkeys in Hsome. revert Hsome. by_compute.
Defined.

(** X6. For a signature with its defaults last whose parameters other than
    [self] all take keywords, the result of [_coerce_args_to_kwargs] passes
    through the function unchanged when it is given again as the keywords of
    a call without positional arguments. *)
Theorem coerce_is_idempotent parameters args kwargs expects_id result :
  _coerce_args_to_kwargs parameters args kwargs expects_id = inr result →
  defaults_last (positional_or_keyword parameters) = true →
  (∀ p, p ∈ parameters → param_name p ≠ "self" → accepts_keyword p = true) →
  _coerce_args_to_kwargs parameters [] result expects_id = inr result.
Proof.
  intros Hok Hlast Hkinds.
  pose proof (coerce_keys _ _ _ _ _ Hok) as Hkeys.
  pose proof (coerce_subseteq _ _ _ _ _ Hok) as Hsub.
  pose proof Hok as Hparts.
  apply coerce_inr in Hparts as (_ & _ & _ & Hkwo & bound & Hbind & Hres).
  apply bind_positional_inr in Hbind as (_ & _ & Hbound & _).
  assert (∀ k, is_Some (kwargs !! k) → is_Some (result !! k)) as Hkw.
  { intros k [v Hk]. exists v. by eapply lookup_weaken. }
  assert (result ∪ keyword_defaults parameters = result) as Hfix.
  { rewrite Hres, <- (assoc_L (∪)). f_equal. apply (idemp_L (∪)). }
  rewrite <- Hfix at 2. apply coerce_intro.
  - intros k v Hk.
    destruct (Hkeys k) as [?|[?|(p & Hp & Hself & Hname & _)]];
      [by eexists|by right|by left|].
    specialize (Hkinds p Hp Hself). unfold accepts_keyword in Hkinds.
    destruct (param_kind p) eqn:Hkind; try discriminate.
    + right. rewrite <- Hname.
      by apply (positional_or_keyword_name parameters expects_id p).
    + left. rewrite <- Hname. unfold required_keyword_only.
      apply list_elem_of_fmap_2, list_elem_of_filter. split.
      * unfold is_keyword_only. by rewrite Hkind.
      * by apply list_elem_of_filter.
  - simpl. lia.
  - rewrite filter_none; [simpl; lia|].
    intros n Hn Hnone.
    destruct (required_positional_given _ _ _ _ _ n Hok Hlast Hn)
      as [Hin|Hin].
    + assert (is_Some (result !! n)) as [? ?]; [|congruence].
      rewrite Hres. apply lookup_union_is_Some. left. by apply Hbound.
    + apply Hkw in Hin as [? ?]. congruence.
  - intros n Hn. by apply Hkw, Hkwo.
  - by destruct (positional_names expects_id parameters).
Qed.

Lemma coerce_is_idempotent_witness :
  ∃ result,
    _coerce_args_to_kwargs set_name_parameters [VStr "Rex"]
      {["loud" := VInt 1]} false = inr result
    ∧ _coerce_args_to_kwargs set_name_parameters [] result false = inr result.
Proof.
  destruct (_coerce_args_to_kwargs set_name_parameters [VStr "Rex"]
              {["loud" := VInt 1]} false) as [e|result] eqn:Hok;
    [vm_compute in Hok; discriminate|].
  exists result. split; [reflexivity|].
  apply (coerce_is_idempotent set_name_parameters [VStr "Rex"]
           {["loud" := VInt 1]} false result Hok eq_refl).
  apply (Forall_forall (λ p, param_name p ≠ "self" → accepts_keyword p = true)).
  repeat constructor; reflexivity.
Defined.

(** ** Events and aggregates *)

(** The arguments of the constructor are among the fields of the event. *)
Lemma event_new_subseteq event_class oid ver ts explicit kwargs e :
  event_new event_class oid ver ts explicit kwargs = inr e →
  explicit ⊆ fields e ∧ kwargs ⊆ fields e.
Proof.
  unfold event_new. intros H.
  destruct (bool_decide (map_Forall _ kwargs)) eqn:Hdisjoint; [|discriminate].
  repeat (case_match; [discriminate |]).
  inversion H; subst; clear H. simpl.
  apply bool_decide_eq_true_1 in Hdisjoint.
  split.
  - apply map_union_subseteq_l', map_union_subseteq_l.
  - apply map_subseteq_spec. intros k v Hk.
    apply lookup_union_Some_l. rewrite lookup_union_r; [done|].
    by destruct (Hdisjoint k v Hk).
Qed.

Lemma event_new_reserved event_class oid ver ts explicit kwargs k :
  k ∈ ["originator_id"; "originator_version"; "timestamp"]
  ∨ is_Some (explicit !! k) →
  is_Some (kwargs !! k) →
  event_new event_class oid ver ts explicit kwargs = inl TypeError.
Proof.
  intros Hreserved [v Hk]. unfold event_new.
  rewrite bool_decide_eq_false_2; [done|].
  intros Hall. destruct (Hall k v Hk) as [Hbase Hexplicit].
  destruct Hreserved as [?|[? ?]]; [done|congruence].
Qed.

(** X9. A keyword named [originator_id], [originator_version] or
    [timestamp] makes [trigger_event] raise [TypeError] and leave the
    aggregate as it was; such a keyword, or one named [originator_topic],
    makes [_create] raise [TypeError] (or, when no id is given and
    [create_id] raises, what [create_id] raised, since [create_id] is called
    before the event is constructed). *)
Theorem reserved_keywords_are_rejected (k : string) (kwargs : Dict) :
  is_Some (kwargs !! k) →
  (k ∈ ["originator_id"; "originator_version"; "timestamp"] →
   ∀ event_class now self,
     trigger_event event_class now kwargs self = (inl TypeError, self))
  ∧ (k ∈ ["originator_id"; "originator_version"; "timestamp";
          "originator_topic"] →
     ∀ resolve_topic cls event_class id uuid4 now,
       _create resolve_topic cls event_class id uuid4 now kwargs
       = inl match id with
             | Some _ => TypeError
             | None =>
                 match cls_create_id cls
                         (filter (λ kv, kv.1 ∈ _create_id_param_names cls)
                            kwargs) uuid4 with
                 | inl e => e
                 | inr _ => TypeError
                 end
             end).
Proof.
  intros Hk. split.
  - intros Hreserved event_class now self.
    unfold trigger_event, bind, get; simpl.
    by rewrite (event_new_reserved _ _ _ _ _ _ k) by auto.
  - intros Hreserved resolve_topic cls event_class id uuid4 now.
    assert (k ∈ ["originator_id"; "originator_version"; "timestamp"]
            ∨ is_Some (({["originator_topic" := VStr (cls_topic cls)]} : Dict)
                         !! k)) as Hcase.
    { apply list_elem_of_In in Hreserved. simpl in Hreserved.
      destruct Hreserved as [<-|[<-|[<-|[<-|[]]]]].
      - left. by left.
      - left. right. by left.
      - left. right. right. by left.
      - right. rewrite lookup_singleton_eq. by eexists. }
    unfold _create. destruct id as [i|].
    + by rewrite (event_new_reserved _ _ _ _ _ _ k).
    + destruct (cls_create_id cls _ uuid4) as [e|oid]; [done|].
      by rewrite (event_new_reserved _ _ _ _ _ _ k).
Qed.

Lemma reserved_keywords_are_rejected_witness :
  trigger_event NameChanged 200
    (<["timestamp" := VTime 0]> {["name" := VStr "Rex"]}) fido
  = (inl TypeError, fido)
  ∧ _create dog_topics Dog Registered None 7%N 100
      (<["originator_topic" := VStr "cats:Cat"]> {["name" := VStr "Fido"]})
    = inl TypeError.
Proof.
  split.
  - apply (reserved_keywords_are_rejected "timestamp").
    + vm_compute. by eexists.
    + by_compute.
  - apply (proj2 (reserved_keywords_are_rejected "originator_topic"
                    (<["originator_topic" := VStr "cats:Cat"]>
                       {["name" := VStr "Fido"]})
                    ltac:(vm_compute; by eexists))
             ltac:(by_compute) dog_topics Dog Registered None 7%N 100).
Defined.

(** X10. [_create] returns an aggregate only for a created-event class.  The
    created event then holds the topic of the class and the keywords of the
    call, has the initial version of the class, the clock reading and the
    given id (or the one [create_id] returned); the aggregate is the
    instance of the class which this topic resolves to that [__base_init__]
    initialised from the event and on which the [__init__] of that class
    then ran, called with the fields of the event other than
    [originator_topic] (and with [id], when [__init__] mentions it); the
    created event is appended to the pending events that [__init__] left. *)
Theorem create_builds_from_the_created_event
    (resolve_topic : string → option AggregateClass)
    (cls : AggregateClass) (event_class : EventClass) (id : option UUID)
    (uuid4 : UUID) (now : datetime) (kwargs : Dict) (agg : Aggregate) :
  _create resolve_topic cls event_class id uuid4 now kwargs = inr agg →
  ec_is_created event_class = true
  ∧ ∃ aggregate_class created_event d,
      resolve_topic (cls_topic cls) = Some aggregate_class
      ∧ fields created_event !! "originator_topic"
        = Some (VStr (cls_topic cls))
      ∧ kwargs ⊆ fields created_event
      ∧ originator_version created_event = getattr_INITIAL_VERSION cls
      ∧ timestamp created_event = now
      ∧ match id with
        | Some i => inr i
        | None => cls_create_id cls
                    (filter (λ kv, kv.1 ∈ _create_id_param_names cls) kwargs)
                    uuid4
        end = inr (originator_id created_event)
      ∧ cls_init aggregate_class
          (let init_kwargs := delete "originator_topic" (fields created_event) in
           if init_mentions_id aggregate_class
           then <["id" := VUuid (originator_id created_event)]> init_kwargs
           else init_kwargs)
          (__dict__ (__base_init__ aggregate_class
                       (originator_id created_event)
                       (getattr_INITIAL_VERSION cls) now))
        = inr d
      ∧ agg
        = set_pending_events (dict_pending_events d ++ [created_event])
            (set_dict d (__base_init__ aggregate_class
                           (originator_id created_event)
                           (getattr_INITIAL_VERSION cls) now)).
Proof.
  intros Hcreate.
  apply create_parts in Hcreate
    as (Hcreated & oid & created_event & agg0 & Hoid & Hnew & Hmut & ->).
  pose proof (event_new_explicit _ _ _ _ _ _ _ "originator_topic"
                (VStr (cls_topic cls)) Hnew (lookup_singleton_eq _ _)) as Htopic.
  pose proof (event_new_subseteq _ _ _ _ _ _ _ Hnew) as [_ Hkw].
  apply event_new_inr in Hnew as (_ & Hid & Hver & Hts & _).
  apply created_mutate_inr in Hmut
    as (topic & aggregate_class & d & Htopic' & Hresolve & Hinit & ->).
  rewrite Htopic in Htopic'. inversion Htopic'; subst topic.
  rewrite Hver, Hts in Hinit. rewrite Hver, Hts.
  split; [done|]. exists aggregate_class, created_event, d.
  do 5 (split; [done|]). split; [by rewrite Hid|]. split; done.
Qed.

Lemma create_builds_from_the_created_event_witness :
  ∃ created_event,
    pending_events fido = [created_event]
    ∧ fields created_event !! "originator_topic"
      = Some (VStr "dogschool:Dog").
Proof.
  destruct (create_builds_from_the_created_event dog_topics Dog Registered
              (Some 7%N) 0%N 100 {["name" := VStr "Fido"]} fido)
    as (_ & aggregate_class & created_event & d & _ & Htopic & _ & _ & _ & _
        & _ & Hagg).
  - vm_compute. reflexivity.
  - exists created_event. split; [|exact Htopic].
    assert (last (pending_events fido) = Some created_event) as Hlast.
    { rewrite Hagg. unfold pending_events; simpl. apply last_snoc. }
    vm_compute in Hlast. inversion Hlast. reflexivity.
Defined.

(** ** Triggering, collecting and replaying *)

(** The events so far, for application code that leaves the id, the version
    and the pending events alone: the events already collected followed by
    the pending ones have consecutive versions, from [first_version] up to
    the version of the aggregate, and all carry its id. *)
Lemma run_operations_invariant first_version ops :
  ∀ self earlier collected self',
  Forall (λ op, match op with
                | Trigger c => apply_keeps_base (cmd_class c)
                | Collect => True
                end) ops →
  first_version ≤ version self + 1 →
  originator_version <$> earlier ++ pending_events self
  = seqZ first_version (version self + 1 - first_version) →
  Forall (λ e, originator_id e = Aggregate_id self)
    (earlier ++ pending_events self) →
  run_operations ops self = (collected, self') →
  originator_version <$> (earlier ++ concat collected) ++ pending_events self'
  = seqZ first_version (version self' + 1 - first_version)
  ∧ Forall (λ e, originator_id e = Aggregate_id self')
      ((earlier ++ concat collected) ++ pending_events self').
Proof.
  induction ops as [|[c|] ops IH];
    intros self earlier collected self' Hkeep Hfirst Hversions Hids Hrun;
    simpl in Hrun.
  - inversion Hrun; subst. simpl. by rewrite app_nil_r.
  - apply Forall_cons in Hkeep as [(Hkid & Hkver & Hkpend) Hkeep].
    destruct (trigger_event _ _ _ self) as [r self1] eqn:Htrig.
    apply trigger_event_effect in Htrig as (Hid1 & Hr). simpl in Hrun.
    specialize (Hid1 Hkid).
    eapply (IH self1); [done| | | |exact Hrun].
    + destruct r as [exn|[]].
      * destruct Hr as [Hv _]. rewrite Hv by done. lia.
      * destruct Hr as [-> _]. lia.
    + destruct r as [exn|[]].
      * destruct Hr as [Hv Hp]. by rewrite Hv, Hp.
      * destruct Hr as (-> & e & _ & _ & Hver & _ & Hp).
        rewrite Hp by done.
        rewrite app_assoc, fmap_app, Hversions. simpl. rewrite Hver.
        replace (version self + 1 + 1 - first_version)
          with ((version self + 1 - first_version) + 1) by lia.
        rewrite (seqZ_app first_version) by lia.
        f_equal. rewrite (seqZ_cons _ 1) by lia.
        f_equal. lia.
    + rewrite Hid1. destruct r as [exn|[]].
      * destruct Hr as [_ Hp]. by rewrite Hp.
      * destruct Hr as (_ & e & _ & Hoid & _ & _ & Hp).
        rewrite Hp by done. rewrite app_assoc. apply Forall_app.
        split; [done|]. by constructor.
  - apply Forall_cons in Hkeep as [_ Hkeep].
    rewrite collect_events_spec in Hrun.
    destruct (run_operations ops _) as [collected1 self2] eqn:Hrest.
    inversion Hrun; subst collected self'; clear Hrun.
    destruct (IH (set_pending_events [] self)
                (earlier ++ pending_events self) collected1 self2)
      as [Hv Hi]; try done.
    + simpl. by rewrite app_nil_r.
    + simpl. by rewrite app_nil_r.
    + simpl. by rewrite !app_assoc in *.
Qed.

(** X11. No event is lost or handed out twice.  For an aggregate made by
    [_create], where the [__init__] of its class and the [apply] methods of
    the events that are triggered leave the id, the version and the list of
    pending events alone: after any sequence of [trigger_event] calls
    (failed ones caught) and [collect_events] calls, the events returned by
    the collections, in order, followed by the events still pending have
    consecutive versions from the initial version of the class up to the
    version of the aggregate, and all carry the id of the aggregate. *)
Theorem collected_and_pending_events_cover_all_versions
    (resolve_topic : string → option AggregateClass)
    (cls : AggregateClass) (event_class : EventClass) (id : option UUID)
    (uuid4 : UUID) (now : datetime) (kwargs : Dict) (agg : Aggregate)
    (ops : list Operation) (collected : list (list DomainEvent))
    (self' : Aggregate) :
  (∀ aggregate_class,
     resolve_topic (cls_topic cls) = Some aggregate_class →
     init_keeps_base aggregate_class) →
  Forall (λ op, match op with
                | Trigger c => apply_keeps_base (cmd_class c)
                | Collect => True
                end) ops →
  _create resolve_topic cls event_class id uuid4 now kwargs = inr agg →
  run_operations ops agg = (collected, self') →
  originator_version <$> concat collected ++ pending_events self'
  = seqZ (getattr_INITIAL_VERSION cls)
      (version self' + 1 - getattr_INITIAL_VERSION cls)
  ∧ Forall (λ e, originator_id e = Aggregate_id self')
      (concat collected ++ pending_events self').
Proof.
  intros Hinit Hkeep Hcreate Hrun.
  apply create_inr in Hcreate
    as (aggregate_class & created_event & Hresolve & _ & Hver & _ & Hv & Hid
        & Hp).
  destruct (Hinit _ Hresolve) as (Hkid & Hkver & Hkpend).
  specialize (Hv Hkver). specialize (Hid Hkid). specialize (Hp Hkpend).
  apply (run_operations_invariant (getattr_INITIAL_VERSION cls) ops agg []
           collected self'); try done.
  - lia.
  - simpl. rewrite Hp, Hv. simpl. rewrite Hver.
    replace (getattr_INITIAL_VERSION cls + 1 - getattr_INITIAL_VERSION cls)
      with 1 by lia.
    reflexivity.
  - simpl. rewrite Hp. by constructor.
Qed.

Lemma collected_and_pending_events_cover_all_versions_witness :
  let ops := [Trigger {| cmd_class := NameChanged; cmd_now := 200;
                         cmd_kwargs := {["name" := VStr "Rex"]} |};
              Collect;
              Trigger {| cmd_class := Barked; cmd_now := 300;
                         cmd_kwargs := ∅ |};
              Trigger {| cmd_class := NameChanged; cmd_now := 400;
                         cmd_kwargs := {["name" := VStr "Max"]} |}] in
  originator_version <$> concat (run_operations ops fido).1
                         ++ pending_events (run_operations ops fido).2
  = [1; 2; 3].
Proof.
  intros ops.
  destruct (collected_and_pending_events_cover_all_versions dog_topics Dog
              Registered (Some 7%N) 0%N 100 {["name" := VStr "Fido"]} fido ops
              (run_operations ops fido).1 (run_operations ops fido).2)
    as [Hversions _].
  - intros aggregate_class Hresolve. by apply dog_init_keeps.
  - repeat constructor; intros e aggregate; reflexivity.
  - vm_compute. reflexivity.
  - apply surjective_pairing.
  - rewrite Hversions. vm_compute. reflexivity.
Defined.







(** ** Snapshots across class versions *)



(** ** Decorated command methods *)



Section DecoratedMethod.

Variable first : MethodParameter.
Variable rest : list MethodParameter.

Hypothesis first_is_self : param_name first = "self".
Hypothesis first_kind : param_kind first = POSITIONAL_OR_KEYWORD.
Hypothesis rest_by_keyword : Forall (λ p, accepts_keyword p = true) rest.
Hypothesis names_differ : NoDup (param_name <$> first :: rest).
Hypothesis signature_defaults_last :
  defaults_last (positional_or_keyword (first :: rest)) = true.




Variable args : list PyVal.
Variable kwargs coerced : Dict.

Hypothesis coerce_ok :
  _coerce_args_to_kwargs (first :: rest) args kwargs false = inr coerced.






End DecoratedMethod.



(** X15. A decorated command method that has a parameter named
    [originator_id], [originator_version], [timestamp] or [event_class]
    cannot be called: whatever the arguments and whichever event class the
    decorator names, the call raises and leaves the aggregate as it was.
    (For a signature with its defaults last, the parameter taking
    keywords.) *)
Theorem decorated_command_with_reserved_parameter_always_raises
    (event_decorator : CommandMethodDecorator) (method : Method)
    (p : MethodParameter) (class_events : string → option EventClass)
    (now : datetime) (args : list PyVal) (kwargs : Dict) (self : Aggregate) :
  original_method event_decorator = Some method →
  p ∈ method_parameters method →
  param_name p ∈ ["originator_id"; "originator_version"; "timestamp";
                  "event_class"] →
  accepts_keyword p = true →
  defaults_last (positional_or_keyword (method_parameters method)) = true →
  ∃ e,
    BoundCommandMethodDecorator_trigger event_decorator class_events now
      args kwargs self
    = (inl e, self).
Proof.
  intros Hmethod Hp Hreserved Hkind Hlast.
  unfold BoundCommandMethodDecorator_trigger. rewrite Hmethod.
  destruct (_coerce_args_to_kwargs _ _ _ _) as [e|coerced] eqn:Hok;
    [by eexists|].
  assert (is_Some (coerced !! param_name p)) as Hgiven.
  { eapply coerce_complete; eauto.
    intros Hself. rewrite Hself in Hreserved. revert Hreserved. by_compute. }
  assert (∀ event_cls,
            trigger_event_with_keywords event_cls now coerced self
            = (inl TypeError, self))
    as Htrig.
  { intros event_cls. unfold trigger_event_with_keywords.
    destruct (decide (param_name p = "event_class")) as [Heq|Hne].
    - rewrite bool_decide_eq_true_2; [done|]. right. by rewrite <- Heq.
    - destruct (bool_decide _); [done|].
      unfold trigger_event, bind, get; simpl.
      rewrite (event_new_reserved _ _ _ _ _ _ (param_name p)); [done| |done].
      left. rewrite !elem_of_cons in Hreserved. rewrite !elem_of_cons.
      destruct Hreserved as [?|[?|[?|[?|Hnil]]]];
        [tauto|tauto|tauto|done|by apply not_elem_of_nil in Hnil]. }
  destruct (given_event_cls event_decorator); [by eexists|].
  destruct (event_cls_name event_decorator) as [[|c name]|];
    [by eexists| |by eexists].
  unfold bind, get; simpl.
  destruct (instance_has self (String c name)); [by eexists|].
  destruct (class_events (String c name)); by eexists.
Qed.

Lemma decorated_command_with_reserved_parameter_always_raises_witness :
  let stamp :=
    {| method_parameters :=
         [ {| param_name := "self"; param_kind := POSITIONAL_OR_KEYWORD;
              param_default := None |};
           {| param_name := "timestamp"; param_kind := POSITIONAL_OR_KEYWORD;
              param_default := None |} ];
       method_body := λ _ aggregate, Returned VNone aggregate |} in
  ∃ e,
    BoundCommandMethodDecorator_trigger
      {| original_method := Some stamp; given_event_cls := None;
         event_cls_name := Some "Stamped" |}
      (λ _, Some (decorated_event_class "Stamped" stamp)) 200
      [VTime 150] ∅ fido
    = (inl e, fido).
Proof.
  intros stamp.
  apply (decorated_command_with_reserved_parameter_always_raises _ stamp
           {| param_name := "timestamp"; param_kind := POSITIONAL_OR_KEYWORD;
              param_default := None |}).
  - reflexivity.
  - right. left.
  - by_compute.
  - reflexivity.
  - reflexivity.
Defined.

(** ** What replaying accepts *)

(** An [AggregateEvent.mutate] that returns took the next event of the
    aggregate, and set the version on what [apply] left. *)
Lemma mutate_inr event_class self aggregate aggregate' :
  AggregateEvent_mutate event_class self aggregate = (inr (), aggregate') →
  originator_id self = Aggregate_id aggregate
  ∧ originator_version self = version aggregate + 1
  ∧ version aggregate' = originator_version self
  ∧ ∃ after_apply,
      ec_apply event_class self aggregate = Returned VNone after_apply
      ∧ Aggregate_id aggregate' = Aggregate_id after_apply.
Proof.
  unfold AggregateEvent_mutate, bind, get, put; simpl.
  destruct (bool_decide (originator_id self ≠ Aggregate_id aggregate)) eqn:Hid;
    [discriminate|].
  destruct (bool_decide (originator_version self ≠ version aggregate + 1))
    eqn:Hver; [discriminate|].
  apply bool_decide_eq_false_1 in Hid, Hver.
  destruct (ec_apply event_class self aggregate) as [[] a1|e a1];
    simpl; intros Heq; inversion Heq; subst; clear Heq.
  split; [by destruct (decide (originator_id self = Aggregate_id aggregate))|].
  split;
    [by destruct (decide (originator_version self = version aggregate + 1))|].
  split; [done|]. by exists a1.
Qed.

Lemma replay_from_some resolve_topic events : ∀ aggregate r,
  Forall (λ ce, apply_keeps Aggregate_id ce.1) events →
  replay resolve_topic events (Some aggregate) = inr r →
  ∃ aggregate',
    r = Some aggregate'
    ∧ Aggregate_id aggregate' = Aggregate_id aggregate
    ∧ version aggregate' = version aggregate + Z.of_nat (length events)
    ∧ Forall (λ ce, ec_is_created ce.1 = false
                    ∧ originator_id ce.2 = Aggregate_id aggregate) events
    ∧ originator_version <$> events.*2
      = seqZ (version aggregate + 1) (Z.of_nat (length events)).
Proof.
  induction events as [|[event_class e] events IH];
    intros aggregate r Hkeep Hrun; simpl in Hrun.
  - inversion Hrun; subst. exists aggregate.
    repeat split; [simpl; lia|done].
  - apply Forall_cons in Hkeep as [Hkid Hkeep]. simpl in Hkid.
    destruct (DomainEvent_mutate _ _ _ _) as [exn|aggregate1] eqn:Hmut;
      [discriminate|].
    unfold DomainEvent_mutate in Hmut.
    destruct (ec_is_created event_class) eqn:Hcreated; [discriminate|].
    simpl in Hmut.
    destruct (AggregateEvent_mutate event_class e aggregate)
      as [[exn|[]] aggregate2] eqn:Hstep; [discriminate|].
    inversion Hmut; subst aggregate2; clear Hmut.
    apply mutate_inr in Hstep as (Hoid & Hver & Hv1 & a1 & Happly & Hid1).
    specialize (Hkid e aggregate). rewrite Happly in Hkid. simpl in Hkid.
    rewrite Hkid in Hid1.
    apply IH in Hrun as (aggregate' & -> & Hid & Hv & Hall & Hversions);
      [|done].
    exists aggregate'. split; [done|].
    split; [congruence|]. split; [simpl length; lia|]. split.
    + constructor; [done|]. eapply Forall_impl; [exact Hall|].
      intros ce [? ?]. split; [done|congruence].
    + rewrite !fmap_cons. cbn [snd]. rewrite Hversions.
      rewrite (seqZ_cons (version aggregate + 1)) by (simpl length; lia).
      rewrite Hver. f_equal. f_equal; [lia|simpl length; lia].
Qed.

(** X16. Replaying accepts only the events of one aggregate, in order.  For
    classes whose [__init__] leaves the id and the version alone and events
    whose [apply] leaves the id alone: when the [mutate] calls of a
    non-empty list of events, the first on [None] and each later one on what
    the one before returned, all return, then the first event is a created
    event and no later one is, every event carries the id of the resulting
    aggregate, and the versions of the events go up by one from the first to
    the version of the aggregate. *)
Theorem replay_accepts_only_one_aggregates_events_in_order
    (resolve_topic : string → option AggregateClass)
    (event_class : EventClass) (first : DomainEvent)
    (events : list (EventClass * DomainEvent)) (r : option Aggregate) :
  (∀ topic aggregate_class,
     resolve_topic topic = Some aggregate_class →
     init_keeps dict_id aggregate_class
     ∧ init_keeps dict_version aggregate_class) →
  Forall (λ ce, apply_keeps Aggregate_id ce.1) events →
  replay resolve_topic ((event_class, first) :: events) None = inr r →
  ∃ aggregate,
    r = Some aggregate
    ∧ ec_is_created event_class = true
    ∧ Forall (λ ce, ec_is_created ce.1 = false) events
    ∧ Forall (λ e, originator_id e = Aggregate_id aggregate)
        (first :: events.*2)
    ∧ originator_version <$> first :: events.*2
      = seqZ (originator_version first) (Z.of_nat (S (length events)))
    ∧ version aggregate
      = originator_version first + Z.of_nat (length events).
Proof.
  intros Hinit Hkeep Hrun. simpl in Hrun.
  destruct (DomainEvent_mutate _ _ _ _) as [exn|aggregate0] eqn:Hmut;
    [discriminate|].
  unfold DomainEvent_mutate in Hmut.
  destruct (ec_is_created event_class) eqn:Hcreated; [|discriminate].
  apply created_mutate_inr in Hmut
    as (topic & aggregate_class & d & _ & Hresolve & Hd & ->).
  destruct (Hinit _ _ Hresolve) as [Hkid Hkver].
  specialize (Hkid _ _ _ Hd). specialize (Hkver _ _ _ Hd).
  simpl in Hkid, Hkver.
  apply replay_from_some in Hrun
    as (aggregate & -> & Hid & Hv & Hall & Hversions); [|done].
  unfold Aggregate_id, version in Hid, Hv, Hall, Hversions.
  simpl in Hid, Hv, Hall, Hversions.
  rewrite Hkid in Hid, Hall. rewrite Hkver in Hv, Hversions.
  exists aggregate. split; [done|]. split; [done|]. split; [|split; [|split]].
  - eapply Forall_impl; [exact Hall|]. by intros ce [? _].
  - constructor; [done|]. apply Forall_fmap.
    eapply Forall_impl; [exact Hall|]. intros ce [_ ?]. simpl.
    unfold Aggregate_id. congruence.
  - rewrite fmap_cons, Hversions.
    rewrite (seqZ_cons (originator_version first)) by lia.
    f_equal. f_equal; lia.
  - unfold version. lia.
Qed.

Lemma replay_accepts_only_one_aggregates_events_in_order_witness :
  ∃ aggregate,
    replay dog_topics
      (zip [Registered; NameChanged] (pending_events fido ++ [renamed 7%N 2]))
      None
    = inr (Some aggregate)
    ∧ version aggregate = 2.
Proof.
  destruct (replay_accepts_only_one_aggregates_events_in_order dog_topics
              Registered (default (renamed 7%N 1) (head (pending_events fido)))
              [(NameChanged, renamed 7%N 2)]
              (Some (set_pending_events []
                       (run_commands
                          [ {| cmd_class := NameChanged; cmd_now := 200;
                               cmd_kwargs := {["name" := VStr "Rex"]} |} ]
                          fido).2)))
    as (aggregate & Hr & _ & _ & _ & _ & Hv).
  - intros topic aggregate_class Hresolve.
    assert (topic = "dogschool:Dog") as ->.
    { unfold dog_topics in Hresolve. by case_bool_decide. }
    destruct (dog_init_keeps aggregate_class Hresolve) as (? & ? & _).
    by split.
  - repeat constructor; intros e aggregate; reflexivity.
  - vm_compute. reflexivity.
  - exists aggregate. split; [|exact Hv].
    rewrite <- Hr. vm_compute. reflexivity.
Defined.
